(** * Apollo data-enrichment tool: validators, client and formatter

    A shallow embedding of [apollo_enrichment_app.py] and the properties
    its specification states about it.

    Python strings are sequences of Unicode code points, Python
    dictionaries decoded from JSON are insertion-ordered association
    lists, and the request bodies built by the client are finite maps.
    The one outbound effect, [requests.post], is a function of the
    request supplied by the environment; every call is recorded in a
    log, so that "no network call" is a statement about that log. *)

From Stdlib Require Import ZArith NArith Lia Bool Ascii String DecimalString.
From stdpp Require Import base option list strings gmap.

Set Default Proof Using "Type".
Set Warnings "-register-all".

(** ** Python strings *)

(** A [str] is a sequence of code points. *)
Definition str : Type := list N.

(** An ASCII literal, character by character. *)
Fixpoint lit (s : string) : str :=
  match s with
  | EmptyString => []
  | String a s' => N_of_ascii a :: lit s'
  end.

Definition LF : N := 10.

(** [str.isspace] for one code point: the table CPython uses for
    [str.strip()] without arguments. *)
Definition is_space (c : N) : bool :=
  ((9 <=? c) && (c <=? 13) || (28 <=? c) && (c <=? 32)
   || (c =? 133) || (c =? 160) || (c =? 5760)
   || (8192 <=? c) && (c <=? 8202)
   || (c =? 8232) || (c =? 8233) || (c =? 8239) || (c =? 8287)
   || (c =? 12288))%N.

Fixpoint lstrip (s : str) : str :=
  match s with
  | [] => []
  | c :: s' => if is_space c then lstrip s' else s
  end.

Definition rstrip (s : str) : str := rev (lstrip (rev s)).

(** [s.strip()] *)
Definition strip (s : str) : str := rstrip (lstrip s).

(** [not s] for a string: it is empty. *)
Definition is_empty (s : str) : bool :=
  match s with [] => true | _ => false end.

(** [str(n)] for an [int]. *)
Definition str_of_int (z : Z) : str := lit (NilZero.string_of_int (Z.to_int z)).

(** ** Regular expressions, as far as the three patterns use them *)

Module Re.

(** A character set is a list of inclusive code-point ranges. *)
Definition charset : Type := list (N * N).

Definition in_class (cs : charset) (c : N) : bool :=
  existsb (fun r => (fst r <=? c)%N && (c <=? snd r)%N) cs.

Inductive regex : Type :=
| Void                      (* matches nothing; only derivatives produce it *)
| Eps                       (* the empty pattern *)
| Class (cs : charset)      (* [...] or a single character *)
| Cat (r1 r2 : regex)       (* r1 r2 *)
| Alt (r1 r2 : regex)       (* r1|r2 *)
| Star (r : regex).         (* r* *)

(** A literal character, and a literal run of characters. *)
Definition Chr (c : N) : regex := Class [(c, c)].

Fixpoint Lit (s : str) : regex :=
  match s with
  | [] => Eps
  | c :: s' => Cat (Chr c) (Lit s')
  end.

(** [r?] *)
Definition Opt (r : regex) : regex := Alt r Eps.

(** [r{n}] *)
Fixpoint Exactly (n : nat) (r : regex) : regex :=
  match n with
  | O => Eps
  | S n' => Cat r (Exactly n' r)
  end.

(** [r{0,n}] *)
Fixpoint UpTo (n : nat) (r : regex) : regex :=
  match n with
  | O => Eps
  | S n' => Opt (Cat r (UpTo n' r))
  end.

(** [r{lo,hi}]; [hi = None] is [r{lo,}]. *)
Definition Repeat (lo : nat) (hi : option nat) (r : regex) : regex :=
  match hi with
  | None => Cat (Exactly lo r) (Star r)
  | Some h => Cat (Exactly lo r) (UpTo (h - lo) r)
  end.

(** [r+] *)
Definition Plus (r : regex) : regex := Repeat 1 None r.

(** The language of a pattern. *)
Inductive Matches : regex -> str -> Prop :=
| M_Eps : Matches Eps []
| M_Class cs c : in_class cs c = true -> Matches (Class cs) [c]
| M_Cat r1 r2 s1 s2 :
    Matches r1 s1 -> Matches r2 s2 -> Matches (Cat r1 r2) (s1 ++ s2)
| M_AltL r1 r2 s : Matches r1 s -> Matches (Alt r1 r2) s
| M_AltR r1 r2 s : Matches r2 s -> Matches (Alt r1 r2) s
| M_Star0 r : Matches (Star r) []
| M_StarS r s1 s2 :
    Matches r s1 -> Matches (Star r) s2 -> Matches (Star r) (s1 ++ s2).

(** What [re.match('^' body '$', s)] looks for: [^] holds at position 0,
    where [re.match] starts; without [re.MULTILINE], [$] holds at the
    end of the string and also just before a newline that is the last
    character of the string. *)
Definition MatchesAnchored (body : regex) (s : str) : Prop :=
  exists p rest, s = p ++ rest /\ Matches body p /\ (rest = [] \/ rest = [LF]).

(** The matcher: Brzozowski derivatives, with the two obvious
    simplifications so that derivatives stay small. *)
Fixpoint nullable (r : regex) : bool :=
  match r with
  | Void => false
  | Eps => true
  | Class _ => false
  | Cat r1 r2 => nullable r1 && nullable r2
  | Alt r1 r2 => nullable r1 || nullable r2
  | Star _ => true
  end.

Definition cat (r1 r2 : regex) : regex :=
  match r1 with
  | Void => Void
  | Eps => r2
  | _ => Cat r1 r2
  end.

Definition alt (r1 r2 : regex) : regex :=
  match r1, r2 with
  | Void, _ => r2
  | _, Void => r1
  | _, _ => Alt r1 r2
  end.

Fixpoint deriv (c : N) (r : regex) : regex :=
  match r with
  | Void => Void
  | Eps => Void
  | Class cs => if in_class cs c then Eps else Void
  | Cat r1 r2 =>
      alt (cat (deriv c r1) r2) (if nullable r1 then deriv c r2 else Void)
  | Alt r1 r2 => alt (deriv c r1) (deriv c r2)
  | Star r1 => cat (deriv c r1) (Star r1)
  end.

(** [$] at the current position: nothing is left, or one final newline. *)
Definition at_dollar (s : str) : bool :=
  match s with
  | [] => true
  | [c] => (c =? LF)%N
  | _ => false
  end.

(** [bool(re.match('^' body '$', s))] *)
Fixpoint match_anchored (body : regex) (s : str) : bool :=
  (nullable body && at_dollar s)
  || match s with
     | [] => false
     | c :: s' => match_anchored (deriv c body) s'
     end.

(** [bool(re.fullmatch(body, s))]: the whole string is in the language. *)
Fixpoint match_full (body : regex) (s : str) : bool :=
  match s with
  | [] => nullable body
  | c :: s' => match_full (deriv c body) s'
  end.

(** No character set of the pattern contains [c]. *)
Fixpoint avoids (c : N) (r : regex) : bool :=
  match r with
  | Void | Eps => true
  | Class cs => negb (in_class cs c)
  | Cat r1 r2 | Alt r1 r2 => avoids c r1 && avoids c r2
  | Star r1 => avoids c r1
  end.

End Re.

(** ** The validators *)

Definition az : N * N := (97, 122)%N.
Definition AZ : N * N := (65, 90)%N.
Definition digit : N * N := (48, 57)%N.
Definition one (c : N) : N * N := (c, c).

Definition HYPHEN : N := 45.
Definition DOT : N := 46.

(** [[a-zA-Z0-9]], [[a-zA-Z0-9-]], [[a-zA-Z]] *)
Definition alnum : Re.charset := [az; AZ; digit].
Definition alnum_hyphen : Re.charset := [az; AZ; digit; one HYPHEN].
Definition alpha : Re.charset := [az; AZ].

(** [^[a-zA-Z0-9][a-zA-Z0-9-]{0,61}[a-zA-Z0-9]?\.([a-zA-Z]{2,})$],
    without its anchors. *)
Definition domain_pattern : Re.regex :=
  Re.Cat (Re.Class alnum)
    (Re.Cat (Re.Repeat 0 (Some 61) (Re.Class alnum_hyphen))
      (Re.Cat (Re.Opt (Re.Class alnum))
        (Re.Cat (Re.Chr DOT)
          (Re.Repeat 2 None (Re.Class alpha))))).

Definition validate_domain (domain : str) : bool :=
  if is_empty domain then false
  else Re.match_anchored domain_pattern domain.

(** [^[a-zA-Z0-9._%+-]+@[a-zA-Z0-9.-]+\.[a-zA-Z]{2,}$], without its
    anchors. *)
Definition email_pattern : Re.regex :=
  Re.Cat (Re.Plus (Re.Class [az; AZ; digit; one 46; one 95; one 37; one 43; one 45]))
    (Re.Cat (Re.Chr 64)
      (Re.Cat (Re.Plus (Re.Class [az; AZ; digit; one 46; one 45]))
        (Re.Cat (Re.Chr DOT)
          (Re.Repeat 2 None (Re.Class alpha))))).

Definition validate_email (email : str) : bool :=
  if is_empty email then false
  else Re.match_anchored email_pattern email.

(** [^https?://(www\.)?linkedin\.com/(in|company)/[a-zA-Z0-9-]+/?$],
    without its anchors. *)
Definition linkedin_pattern : Re.regex :=
  Re.Cat (Re.Lit (lit "http"))
    (Re.Cat (Re.Opt (Re.Chr 115))
      (Re.Cat (Re.Lit (lit "://"))
        (Re.Cat (Re.Opt (Re.Lit (lit "www.")))
          (Re.Cat (Re.Lit (lit "linkedin.com/"))
            (Re.Cat (Re.Alt (Re.Lit (lit "in")) (Re.Lit (lit "company")))
              (Re.Cat (Re.Chr 47)
                (Re.Cat (Re.Plus (Re.Class alnum_hyphen))
                  (Re.Opt (Re.Chr 47))))))))).

Definition validate_linkedin_url (url : str) : bool :=
  if is_empty url then true  (* Optional field *)
  else Re.match_anchored linkedin_pattern url.

(** ** Python values and exceptions *)

(** What the model takes from the Python runtime without defining it:
    floating-point numbers, and [repr] of a string (quoting and escapes),
    which [str()] of a list or of a dict uses. *)
Class PyRuntime : Type := {
  float : Type;
  float_bool : float -> bool;   (* bool(x) *)
  float_repr : float -> str;    (* repr(x) *)
  str_repr : str -> str         (* repr(s) *)
}.

(** Exceptions of the [Exception] hierarchy, by the two classes the
    handlers of the client tell apart, with their [str(e)]. *)
Inductive exn_class : Type :=
| RequestException   (* requests.exceptions.RequestException and subclasses *)
| OtherException.    (* any other subclass of Exception *)

Record exn : Type := Exn { exn_class_of : exn_class; exn_str : str }.

(** A computation that returns or raises. *)
Definition Result (A : Type) : Type := (exn + A)%type.

#[global] Instance Result_ret : MRet Result := fun A x => inr x.
#[global] Instance Result_bind : MBind Result := fun A B f m =>
  match m with
  | inl e => inl e
  | inr x => f x
  end.

Section Values.
Context `{PyRuntime}.

(** A decoded JSON document. A dict keeps its items in insertion order. *)
Inductive value : Type :=
| VNone
| VBool (b : bool)
| VInt (z : Z)
| VFloat (x : float)
| VStr (s : str)
| VList (l : list value)
| VDict (items : list (str * value)).

(** [bool(v)] *)
Definition truthy (v : value) : bool :=
  match v with
  | VNone => false
  | VBool b => b
  | VInt z => negb (z =? 0)%Z
  | VFloat x => float_bool x
  | VStr s => negb (is_empty s)
  | VList l => match l with [] => false | _ => true end
  | VDict d => match d with [] => false | _ => true end
  end.

(** [type(v).__name__] *)
Definition type_name (v : value) : str :=
  match v with
  | VNone => lit "NoneType"
  | VBool _ => lit "bool"
  | VInt _ => lit "int"
  | VFloat _ => lit "float"
  | VStr _ => lit "str"
  | VList _ => lit "list"
  | VDict _ => lit "dict"
  end.

(** [", ".join(parts)] *)
Fixpoint join_comma (parts : list str) : str :=
  match parts with
  | [] => []
  | [p] => p
  | p :: ps => p ++ lit ", " ++ join_comma ps
  end.

(** [repr(v)] *)
Fixpoint py_repr (v : value) : str :=
  match v with
  | VNone => lit "None"
  | VBool b => if b then lit "True" else lit "False"
  | VInt z => str_of_int z
  | VFloat x => float_repr x
  | VStr s => str_repr s
  | VList l => lit "[" ++ join_comma (List.map py_repr l) ++ lit "]"
  | VDict d =>
      lit "{"
      ++ join_comma
           (List.map (fun kv => match kv with
                                | (k, v') => str_repr k ++ lit ": " ++ py_repr v'
                                end) d)
      ++ lit "}"
  end.

(** [str(v)], which is what an f-string field [{v}] inserts. *)
Definition py_str (v : value) : str :=
  match v with
  | VStr s => s
  | _ => py_repr v
  end.

(** [d.get(k)] on a dict: the first (and, in a decoded document, only)
    item with that key. *)
Fixpoint dict_lookup (d : list (str * value)) (k : str) : option value :=
  match d with
  | [] => None
  | (k', v) :: d' => if decide (k' = k) then Some v else dict_lookup d' k
  end.

Definition AttributeError (v : value) (attr : string) : exn :=
  Exn OtherException
    (lit "'" ++ type_name v ++ lit "' object has no attribute '" ++ lit attr ++ lit "'").

(** [v.get(k, default)]: only a dict has the method. *)
Definition py_get (v : value) (k : string) (default : value) : Result value :=
  match v with
  | VDict d => inr (from_option id default (dict_lookup d (lit k)))
  | _ => inl (AttributeError v "get")
  end.

(** [v[0]] *)
Definition py_first (v : value) : Result value :=
  match v with
  | VList (x :: _) => inr x
  | VList [] => inl (Exn OtherException (lit "list index out of range"))
  | VStr (c :: _) => inr (VStr [c])
  | VStr [] => inl (Exn OtherException (lit "string index out of range"))
  | VDict _ => inl (Exn OtherException (lit "0"))   (* KeyError(0) *)
  | _ => inl (Exn OtherException
                (lit "'" ++ type_name v ++ lit "' object is not subscriptable"))
  end.

(** ** Effects: the outbound HTTP call *)

Record request : Type := Request {
  req_url : str;
  req_json : gmap str str;
  req_headers : gmap str str
}.

(** What the client reads from a response; [resp_json] is the outcome
    of [response.json()]. *)
Record response : Type := Response {
  status_code : Z;
  text : str;
  resp_json : Result value
}.

(** A computation that may call out: it returns or raises, and extends
    the log of the requests that were sent. *)
Definition M (A : Type) : Type := list request -> Result A * list request.

#[global] Instance M_ret : MRet M := fun A x log => (inr x, log).
#[global] Instance M_bind : MBind M := fun A B f m log =>
  match m log with
  | (inl e, log') => (inl e, log')
  | (inr x, log') => f x log'
  end.

Definition lift {A : Type} (r : Result A) : M A := fun log => (r, log).

(** [try: body  except Exception as e: handler(e)] *)
Definition try_except {A : Type} (body : M A) (handler : exn -> M A) : M A :=
  fun log =>
    match body log with
    | (inl e, log') => handler e log'
    | (inr x, log') => (inr x, log')
    end.

(** [requests.post]: what the network answers to a request. *)
Variable requests_post : request -> Result response.

Definition post (url : str) (json : gmap str str) (headers : gmap str str)
  : M response :=
  fun log =>
    let r := Request url json headers in
    (requests_post r, log ++ [r]).

(** ** The enrichment client *)

Record ApolloAPI : Type := {
  api_key : str;
  base_url : str;
  headers : gmap str str
}.

(** [ApolloAPI.__init__] *)
Definition ApolloAPI_init (api_key : str) : ApolloAPI :=
  {| api_key := api_key;
     base_url := lit "https://api.apollo.io/api/v1";
     headers :=
       <[lit "X-Api-Key" := api_key]>
         (<[lit "Cache-Control" := lit "no-cache"]>
            {[lit "Content-Type" := lit "application/json"]}) |}.

(** The dict every client call returns. *)
Record EnrichmentResult : Type := {
  status : str;
  data : value;
  message : str
}.

(** [if x:] for an optional string argument: given and not empty. *)
Definition given (x : option str) : bool :=
  match x with
  | Some (_ :: _) => true
  | _ => false
  end.

(** [params[k] = x] under [if x:] *)
Definition set_if_given (k : string) (x : option str) (params : gmap str str)
  : gmap str str :=
  if given x then <[lit k := default [] x]> params else params.

(** The two [except] clauses, in order. *)
Definition on_exception (e : exn) : M EnrichmentResult :=
  match exn_class_of e with
  | RequestException =>
      mret {| status := lit "error"; data := VDict [];
              message := lit "Request failed: " ++ exn_str e |}
  | OtherException =>
      mret {| status := lit "error"; data := VDict [];
              message := lit "Unexpected error: " ++ exn_str e |}
  end.

Definition enrich_company (self : ApolloAPI) (domain : str)
    (linkedin_url company_name country_code : option str) : M EnrichmentResult :=
  try_except
    (let url := base_url self ++ lit "/organizations/enrich" in
     let params := {[lit "domain" := domain]} in
     let params := set_if_given "linkedin_url" linkedin_url params in
     let params := set_if_given "name" company_name params in
     let params := set_if_given "country" country_code params in
     response ← post url params (headers self);
     if (status_code response =? 200)%Z then
       data ← lift (resp_json response);
       organization ← lift (py_get data "organization" (VDict []));
       mret {| status := lit "success"; data := organization;
               message := lit "Company data enriched successfully" |}
     else
       mret {| status := lit "error"; data := VDict [];
               message := lit "API Error: " ++ str_of_int (status_code response)
                          ++ lit " - " ++ text response |})
    on_exception.

Definition enrich_contact (self : ApolloAPI) (email : str)
    (linkedin_url first_name last_name : option str) : M EnrichmentResult :=
  try_except
    (let url := base_url self ++ lit "/people/match" in
     let params := {[lit "email" := email]} in
     let params := set_if_given "linkedin_url" linkedin_url params in
     let params := set_if_given "first_name" first_name params in
     let params := set_if_given "last_name" last_name params in
     response ← post url params (headers self);
     if (status_code response =? 200)%Z then
       data ← lift (resp_json response);
       person ← lift (py_get data "person" (VDict []));
       mret {| status := lit "success"; data := person;
               message := lit "Contact data enriched successfully" |}
     else
       mret {| status := lit "error"; data := VDict [];
               message := lit "API Error: " ++ str_of_int (status_code response)
                          ++ lit " - " ++ text response |})
    on_exception.

(** ** The formatter and the two entry points *)

Definition CROSS_MARK : N := 0x274C.
Definition CHECK_MARK : N := 0x2705.
Definition BAR_CHART : N := 0x1F4CA.
Definition BUST : N := 0x1F464.
Definition BULLET : N := 0x2022.

(** The literal start of a report line, as in [f"• **Name:** {...}"]. *)
Definition bullet (s : string) : str := BULLET :: lit s.

Definition NA : value := VStr (lit "N/A").

(** Lines 163-178: the report for a company result. *)
Definition format_company (result : EnrichmentResult) : Result str :=
  if decide (result.(status) = lit "success") then
    let data := result.(data) in
    let formatted_result := CHECK_MARK :: lit " " ++ result.(message) ++ [LF; LF] in
    let formatted_result :=
      formatted_result ++ BAR_CHART :: lit " **Enriched Company Data:**" ++ [LF] in
    name ← py_get data "name" NA;
    let formatted_result :=
      formatted_result ++ bullet " **Name:** " ++ py_str name ++ [LF] in
    domain ← py_get data "domain" NA;
    let formatted_result :=
      formatted_result ++ bullet " **Domain:** " ++ py_str domain ++ [LF] in
    website_url ← py_get data "website_url" NA;
    let formatted_result :=
      formatted_result ++ bullet " **Website:** " ++ py_str website_url ++ [LF] in
    linkedin_url ← py_get data "linkedin_url" NA;
    let formatted_result :=
      formatted_result ++ bullet " **LinkedIn:** " ++ py_str linkedin_url ++ [LF] in
    industry ← py_get data "industry" NA;
    let formatted_result :=
      formatted_result ++ bullet " **Industry:** " ++ py_str industry ++ [LF] in
    estimated_num_employees ← py_get data "estimated_num_employees" NA;
    let formatted_result :=
      formatted_result ++ bullet " **Company Size:** "
      ++ py_str estimated_num_employees ++ [LF] in
    city ← py_get data "city" NA;
    state ← py_get data "state" NA;
    country ← py_get data "country" NA;
    let formatted_result :=
      formatted_result ++ bullet " **Location:** " ++ py_str city ++ lit ", "
      ++ py_str state ++ lit ", " ++ py_str country ++ [LF] in
    founded_year ← py_get data "founded_year" NA;
    let formatted_result :=
      formatted_result ++ bullet " **Founded:** " ++ py_str founded_year ++ [LF] in
    short_description ← py_get data "short_description" NA;
    let formatted_result :=
      formatted_result ++ bullet " **Description:** "
      ++ py_str short_description ++ [LF] in
    mret formatted_result
  else
    mret (CROSS_MARK :: lit " " ++ result.(message)).

(** Line 213:
    [data.get('organization', {}).get('name', 'N/A')
       if data.get('organization') else 'N/A'] *)
Definition company_cell (data : value) : Result value :=
  cond ← py_get data "organization" VNone;
  if truthy cond then
    organization ← py_get data "organization" (VDict []);
    py_get organization "name" NA
  else mret NA.

(** Line 215:
    [data.get('phone_numbers', [{}])[0].get('raw_number', 'N/A')
       if data.get('phone_numbers') else 'N/A'] *)
Definition phone_cell (data : value) : Result value :=
  cond ← py_get data "phone_numbers" VNone;
  if truthy cond then
    phone_numbers ← py_get data "phone_numbers" (VList [VDict []]);
    first ← py_first phone_numbers;
    py_get first "raw_number" NA
  else mret NA.

(** Lines 205-220: the report for a contact result. *)
Definition format_contact (result : EnrichmentResult) : Result str :=
  if decide (result.(status) = lit "success") then
    let data := result.(data) in
    let formatted_result := CHECK_MARK :: lit " " ++ result.(message) ++ [LF; LF] in
    let formatted_result :=
      formatted_result ++ BUST :: lit " **Enriched Contact Data:**" ++ [LF] in
    first_name ← py_get data "first_name" NA;
    last_name ← py_get data "last_name" NA;
    let formatted_result :=
      formatted_result ++ bullet " **Name:** " ++ py_str first_name ++ lit " "
      ++ py_str last_name ++ [LF] in
    email ← py_get data "email" NA;
    let formatted_result :=
      formatted_result ++ bullet " **Email:** " ++ py_str email ++ [LF] in
    linkedin_url ← py_get data "linkedin_url" NA;
    let formatted_result :=
      formatted_result ++ bullet " **LinkedIn:** " ++ py_str linkedin_url ++ [LF] in
    title ← py_get data "title" NA;
    let formatted_result :=
      formatted_result ++ bullet " **Title:** " ++ py_str title ++ [LF] in
    company ← company_cell data;
    let formatted_result :=
      formatted_result ++ bullet " **Company:** " ++ py_str company ++ [LF] in
    city ← py_get data "city" NA;
    state ← py_get data "state" NA;
    country ← py_get data "country" NA;
    let formatted_result :=
      formatted_result ++ bullet " **Location:** " ++ py_str city ++ lit ", "
      ++ py_str state ++ lit ", " ++ py_str country ++ [LF] in
    phone ← phone_cell data;
    let formatted_result :=
      formatted_result ++ bullet " **Phone:** " ++ py_str phone ++ [LF] in
    twitter_url ← py_get data "twitter_url" NA;
    let formatted_result :=
      formatted_result ++ bullet " **Twitter:** " ++ py_str twitter_url ++ [LF] in
    headline ← py_get data "headline" NA;
    let formatted_result :=
      formatted_result ++ bullet " **Bio:** " ++ py_str headline ++ [LF] in
    mret formatted_result
  else
    mret (CROSS_MARK :: lit " " ++ result.(message)).

(** [x.strip() if x else None] *)
Definition strip_or_None (x : str) : option str :=
  if is_empty x then None else Some (strip x).

Definition API_KEY_REQUIRED : str :=
  CROSS_MARK :: lit " Error: Please enter your Apollo API key".
Definition DOMAIN_REQUIRED : str :=
  CROSS_MARK :: lit " Error: Company domain is required".
Definition DOMAIN_INVALID : str :=
  CROSS_MARK :: lit " Error: Please enter a valid domain (e.g., example.com)".
Definition COMPANY_LINKEDIN_INVALID : str :=
  CROSS_MARK :: lit " Error: Please enter a valid LinkedIn URL (e.g., https://linkedin.com/company/example)".
Definition EMAIL_REQUIRED : str :=
  CROSS_MARK :: lit " Error: Email address is required".
Definition EMAIL_INVALID : str :=
  CROSS_MARK :: lit " Error: Please enter a valid email address".
Definition CONTACT_LINKEDIN_INVALID : str :=
  CROSS_MARK :: lit " Error: Please enter a valid LinkedIn URL (e.g., https://linkedin.com/in/username)".

Definition enrich_company_data
    (api_key domain linkedin_url company_name country_code : str) : M str :=
  if is_empty (strip api_key) then mret API_KEY_REQUIRED
  else if is_empty (strip domain) then mret DOMAIN_REQUIRED
  else if negb (validate_domain domain) then mret DOMAIN_INVALID
  else if negb (is_empty linkedin_url) && negb (validate_linkedin_url linkedin_url)
  then mret COMPANY_LINKEDIN_INVALID
  else
    let apollo := ApolloAPI_init api_key in
    result ← enrich_company apollo (strip domain)
               (strip_or_None linkedin_url)
               (strip_or_None company_name)
               (strip_or_None country_code);
    lift (format_company result).

Definition enrich_contact_data
    (api_key email linkedin_url first_name last_name : str) : M str :=
  if is_empty (strip api_key) then mret API_KEY_REQUIRED
  else if is_empty (strip email) then mret EMAIL_REQUIRED
  else if negb (validate_email email) then mret EMAIL_INVALID
  else if negb (is_empty linkedin_url) && negb (validate_linkedin_url linkedin_url)
  then mret CONTACT_LINKEDIN_INVALID
  else
    let apollo := ApolloAPI_init api_key in
    result ← enrich_contact apollo (strip email)
               (strip_or_None linkedin_url)
               (strip_or_None first_name)
               (strip_or_None last_name);
    lift (format_contact result).

End Values.

(** ** The statements of the specification, as predicates *)

Definition in_set (cs : Re.charset) (c : N) : Prop := Re.in_class cs c = true.

(** "a dot-separated alphabetic suffix of length at least 2" *)
Definition dotted_alpha_suffix (s : str) : Prop :=
  exists p t, s = p ++ DOT :: t /\ Forall (in_set alpha) t /\ 2 <= length t.

(** "a label of 1-63 alphanumeric/hyphen characters that does not start
    with a hyphen, followed by a dot and an alphabetic TLD of length at
    least 2" *)
Definition label_dot_tld (s : str) : Prop :=
  exists label tld,
    s = label ++ DOT :: tld
    /\ 1 <= length label <= 63
    /\ Forall (in_set alnum_hyphen) label
    /\ head label <> Some HYPHEN
    /\ Forall (in_set alpha) tld /\ 2 <= length tld.

(** The same, with "that does not start or end with a hyphen". *)
Definition strict_label_dot_tld (s : str) : Prop :=
  exists label tld,
    s = label ++ DOT :: tld
    /\ 1 <= length label <= 63
    /\ Forall (in_set alnum_hyphen) label
    /\ head label <> Some HYPHEN
    /\ last label <> Some HYPHEN
    /\ Forall (in_set alpha) tld /\ 2 <= length tld.

(** Every character is white space. *)
Definition all_space (s : str) : Prop := Forall (fun c => is_space c = true) s.

(** "blank": nothing is left after trimming. *)
Definition blank (s : str) : Prop := strip s = [].

(** An optional field as the request carries it: absent when it is empty
    after trimming, trimmed otherwise. *)
Definition trimmed_or_absent (s : str) : option str :=
  if is_empty (strip s) then None else Some (strip s).

(** Lines of text, each ended by a newline. *)
Definition unlines (ls : list str) : str := concat (List.map (fun l => l ++ [LF]) ls).

Section Statements.
Context `{PyRuntime}.

Definition error_result (msg : str) : EnrichmentResult :=
  {| status := lit "error"; data := VDict []; message := msg |}.

(** How the client turns the outcome of the HTTP call into a result:
    the error cases of section 4.2. *)
Definition normalized (outcome : Result response) (res : EnrichmentResult) : Prop :=
  (forall resp, outcome = inr resp -> status_code resp <> 200%Z ->
     res = error_result (lit "API Error: " ++ str_of_int (status_code resp)
                         ++ lit " - " ++ text resp))
  /\ (forall e, outcome = inl e -> exn_class_of e = RequestException ->
        res = error_result (lit "Request failed: " ++ exn_str e))
  /\ (forall e, outcome = inl e -> exn_class_of e = OtherException ->
        res = error_result (lit "Unexpected error: " ++ exn_str e))
  /\ (forall resp e, outcome = inr resp -> status_code resp = 200%Z ->
        resp_json resp = inl e ->
        res = error_result
                ((match exn_class_of e with
                  | RequestException => lit "Request failed: "
                  | OtherException => lit "Unexpected error: "
                  end) ++ exn_str e))
  /\ (forall resp v, outcome = inr resp -> status_code resp = 200%Z ->
        resp_json resp = inr v -> (forall d, v <> VDict d) ->
        res = error_result
                (lit "Unexpected error: " ++ exn_str (AttributeError v "get"))).

(** The invariant of section 3 on a result, for the sub-object [key]. *)
Definition result_invariant (key : string) (outcome : Result response)
    (res : EnrichmentResult) : Prop :=
  (status res = lit "success" \/ status res = lit "error")
  /\ (status res = lit "success" ->
      exists resp d,
        outcome = inr resp /\ status_code resp = 200%Z
        /\ resp_json resp = inr (VDict d)
        /\ data res = from_option id (VDict []) (dict_lookup d (lit key)))
  /\ (status res = lit "error" -> data res = VDict [] /\ message res <> []).

(** The text of a plain field as the code produces it: the fallback
    when the key is absent, [str] of the value otherwise. *)
Definition shown (d : list (str * value)) (k : string) : str :=
  match dict_lookup d (lit k) with
  | Some v => py_str v
  | None => lit "N/A"
  end.

(** The text of a plain field as the specification words it: the
    fallback when the key is absent or its value is falsy. *)
Definition shown_unless_falsy (d : list (str * value)) (k : string) : str :=
  match dict_lookup d (lit k) with
  | Some v => if truthy v then py_str v else lit "N/A"
  | None => lit "N/A"
  end.

(** A report: the header line with the message, an empty line, the
    title, and one line per (label, text) cell, in order. *)
Definition report (icon : N) (title : string) (msg : str)
    (cells : list (string * str)) : str :=
  unlines
    ([CHECK_MARK :: lit " " ++ msg; []; icon :: lit title]
     ++ List.map (fun c => BULLET :: lit " **" ++ lit (fst c) ++ lit ":** " ++ snd c)
                 cells).

(** The company fields, in order, for a way [show] to render a key. *)
Definition company_cells (show : string -> str) : list (string * str) :=
  [("Name", show "name");
   ("Domain", show "domain");
   ("Website", show "website_url");
   ("LinkedIn", show "linkedin_url");
   ("Industry", show "industry");
   ("Company Size", show "estimated_num_employees");
   ("Location", show "city" ++ lit ", " ++ show "state" ++ lit ", " ++ show "country");
   ("Founded", show "founded_year");
   ("Description", show "short_description")].

(** The contact fields, in order; the Company and Phone texts are
    computed apart. *)
Definition contact_cells (show : string -> str) (company phone : str)
  : list (string * str) :=
  [("Name", show "first_name" ++ lit " " ++ show "last_name");
   ("Email", show "email");
   ("LinkedIn", show "linkedin_url");
   ("Title", show "title");
   ("Company", company);
   ("Location", show "city" ++ lit ", " ++ show "state" ++ lit ", " ++ show "country");
   ("Phone", phone);
   ("Twitter", show "twitter_url");
   ("Bio", show "headline")].

Definition success_result (payload : value) (msg : str) : EnrichmentResult :=
  {| status := lit "success"; data := payload; message := msg |}.

(** The organization of the worked example of section 8, and the
    report it is rendered to. *)
Definition example_organization : value :=
  VDict [(lit "name", VStr (lit "Example Corp"));
         (lit "domain", VStr (lit "example.com"))].

Definition example_report : str :=
  unlines
    [CHECK_MARK :: lit " Company data enriched successfully";
     [];
     BAR_CHART :: lit " **Enriched Company Data:**";
     BULLET :: lit " **Name:** Example Corp";
     BULLET :: lit " **Domain:** example.com";
     BULLET :: lit " **Website:** N/A";
     BULLET :: lit " **LinkedIn:** N/A";
     BULLET :: lit " **Industry:** N/A";
     BULLET :: lit " **Company Size:** N/A";
     BULLET :: lit " **Location:** N/A, N/A, N/A";
     BULLET :: lit " **Founded:** N/A";
     BULLET :: lit " **Description:** N/A"].

End Statements.

(** A runtime for documents without floating-point numbers, in which
    [repr] of a string only adds the quotes. *)
Definition plain_runtime : PyRuntime :=
  {| float := Empty_set;
     float_bool := fun _ => true;
     float_repr := fun _ => [];
     str_repr := fun s => lit "'" ++ s ++ lit "'" |}.

(** A payload whose name is present and empty. *)
Definition empty_name_payload `{PyRuntime} : list (str * value) :=
  [(lit "name", VStr [])].

(** The response of the worked example: HTTP 200 with the body
    {"organization": {"name": "Example Corp", "domain": "example.com"}}. *)
Definition example_response `{PyRuntime} : response :=
  {| status_code := 200;
     text := lit "{'organization': {'name': 'Example Corp', 'domain': 'example.com'}}";
     resp_json := inr (VDict [(lit "organization", example_organization)]) |}.

(** HTTP 200 with a body that is no JSON: [response.json()] raises
    [requests.exceptions.JSONDecodeError], which is a
    [RequestException]. *)
Definition undecodable_response `{PyRuntime} : response :=
  {| status_code := 200;
     text := lit "<html></html>";
     resp_json :=
       inl (Exn RequestException (lit "Expecting value: line 1 column 1 (char 0)")) |}.

(** A network on which every call fails to connect. *)
Definition offline `{PyRuntime} : request -> Result response :=
  fun _ => inl (Exn RequestException (lit "Connection refused")).

(** A network that answers every call with the same response. *)
Definition answering `{PyRuntime} (resp : response) : request -> Result response :=
  fun _ => inr resp.

(** ** The configuration helpers ([apollo_config.py]) *)

(** [os.getenv('APOLLO_API_KEY')], for an environment [env]. *)
Definition get_apollo_api_key (env : gmap str str) : option str :=
  env !! lit "APOLLO_API_KEY".

(** [validate_api_key]: [not api_key or len(api_key.strip()) < 10] is
    the rejection. *)
Definition validate_api_key (api_key : str) : bool :=
  if is_empty api_key || (length (strip api_key) <? 10) then false else true.

(** ** The launcher ([run_app.py]) *)

Module Launcher.

(** How [subprocess.run(..., check=True)] ends, as [main] tells the
    cases apart; the texts are [str(e)]. *)
Inductive run_outcome : Type :=
| Completed                          (* exit status 0 *)
| CalledProcessError (text : str)    (* non-zero exit status *)
| KeyboardInterrupt                  (* interrupted from the keyboard *)
| OtherError (text : str).           (* any other Exception *)

(** What [main] reads from its surroundings. *)
Record world : Type := {
  app_file_exists : bool;    (* os.path.exists("apollo_enrichment_app.py") *)
  subprocess_run : run_outcome
}.

(** What [main] does to its surroundings, in order. *)
Inductive event : Type :=
| Print (line : str)
| Run (script : str).

Definition ROCKET : N := 0x1F680.
Definition WAVING_HAND : N := 0x1F44B.
Definition APP : string := "apollo_enrichment_app.py".

Definition main (w : world) : bool * list event :=
  let out := [Print (ROCKET :: lit " Starting Apollo Data Enrichment Tool...");
              Print (replicate 50 61%N)] in
  if negb (app_file_exists w) then
    (false,
     out ++ [Print (0x274C%N :: lit " Error: apollo_enrichment_app.py not found!");
             Print (lit "Make sure you're in the correct directory.")])
  else
    let out := out ++ [Run (lit APP)] in
    match subprocess_run w with
    | Completed => (true, out)
    | CalledProcessError e =>
        (false, out ++ [Print (0x274C%N :: lit " Error running application: " ++ e)])
    | KeyboardInterrupt =>
        (true, out ++ [Print (LF :: WAVING_HAND :: lit " Application stopped by user")])
    | OtherError e =>
        (false, out ++ [Print (0x274C%N :: lit " Unexpected error: " ++ e)])
    end.

(** [sys.exit(0 if success else 1)] *)
Definition exit_status (w : world) : Z :=
  if fst (main w) then 0%Z else 1%Z.

(** The scripts that were started, in order. *)
Definition started (evs : list event) : list str :=
  omap (fun ev => match ev with Run s => Some s | Print _ => None end) evs.

End Launcher.

(** ** What the validators accept, spelled out *)

(** The two character sets of the e-mail pattern:
    [[a-zA-Z0-9._%+-]] and [[a-zA-Z0-9.-]]. *)
Definition email_local : Re.charset :=
  [az; AZ; digit; one 46; one 95; one 37; one 43; one 45].
Definition email_host : Re.charset := [az; AZ; digit; one 46; one 45].

(** A label of 1-63 alphanumeric/hyphen characters that starts with an
    alphanumeric one and, when it has all 63, also ends with one; a dot;
    two or more letters. *)
Definition domain_shape (s : str) : Prop :=
  exists label tld,
    s = label ++ DOT :: tld
    /\ 1 <= length label <= 63
    /\ Forall (in_set alnum_hyphen) label
    /\ (exists c, head label = Some c /\ in_set alnum c)
    /\ (length label = 63 -> exists c, last label = Some c /\ in_set alnum c)
    /\ Forall (in_set alpha) tld /\ 2 <= length tld.

(** local part, [@], host part, a dot, two or more letters. *)
Definition email_shape (s : str) : Prop :=
  exists local host tld,
    s = local ++ 64%N :: host ++ DOT :: tld
    /\ local <> [] /\ Forall (in_set email_local) local
    /\ host <> [] /\ Forall (in_set email_host) host
    /\ Forall (in_set alpha) tld /\ 2 <= length tld.

(** [http] or [https], [://], an optional [www.], [linkedin.com/], [in]
    or [company], a slash, a non-empty slug, an optional final slash. *)
Definition linkedin_shape (s : str) : Prop :=
  exists scheme www kind slug slash,
    s = lit "http" ++ scheme ++ lit "://" ++ www ++ lit "linkedin.com/"
        ++ kind ++ 47%N :: slug ++ slash
    /\ (scheme = [] \/ scheme = lit "s")
    /\ (www = [] \/ www = lit "www.")
    /\ (kind = lit "in" \/ kind = lit "company")
    /\ slug <> [] /\ Forall (in_set alnum_hyphen) slug
    /\ (slash = [] \/ slash = [47%N]).

(** [P] holds of [s], or of [s] without its one final newline. *)
Definition up_to_final_newline (P : str -> Prop) (s : str) : Prop :=
  P s \/ exists s', s = s' ++ [LF] /\ P s'.

(** No character is white space. *)
Definition space_free (s : str) : Prop := Forall (fun c => is_space c = false) s.

(** The white-space table of [is_space], as ranges. *)
Definition space_ranges : Re.charset :=
  [(9, 13); (28, 32); (133, 133); (160, 160); (5760, 5760); (8192, 8202);
   (8232, 8232); (8233, 8233); (8239, 8239); (8287, 8287); (12288, 12288)]%N.

(** No range of [cs] meets a range of [ws]. *)
Definition apart (cs ws : Re.charset) : bool :=
  forallb (fun r => forallb (fun w => (snd r <? fst w)%N || (snd w <? fst r)%N) ws) cs.

(** All the character sets of a pattern, together. *)
Fixpoint pattern_chars (r : Re.regex) : Re.charset :=
  match r with
  | Re.Void | Re.Eps => []
  | Re.Class cs => cs
  | Re.Cat r1 r2 | Re.Alt r1 r2 => pattern_chars r1 ++ pattern_chars r2
  | Re.Star r1 => pattern_chars r1
  end.

(** ** The requests of the two entry points *)

Section Requests.
Context `{PyRuntime}.

(** The request [enrich_company_data] sends once its checks pass. *)
Definition company_request (api_key domain linkedin_url company_name country_code : str)
  : request :=
  {| req_url := lit "https://api.apollo.io/api/v1/organizations/enrich";
     req_json :=
       set_if_given "country" (strip_or_None country_code)
         (set_if_given "name" (strip_or_None company_name)
            (set_if_given "linkedin_url" (strip_or_None linkedin_url)
               {[lit "domain" := strip domain]}));
     req_headers := headers (ApolloAPI_init api_key) |}.

(** The request [enrich_contact_data] sends once its checks pass. *)
Definition contact_request (api_key email linkedin_url first_name last_name : str)
  : request :=
  {| req_url := lit "https://api.apollo.io/api/v1/people/match";
     req_json :=
       set_if_given "last_name" (strip_or_None last_name)
         (set_if_given "first_name" (strip_or_None first_name)
            (set_if_given "linkedin_url" (strip_or_None linkedin_url)
               {[lit "email" := strip email]}));
     req_headers := headers (ApolloAPI_init api_key) |}.

(** The text an error result with message [msg] is shown as. *)
Definition failure (msg : str) : Result str := inr (CROSS_MARK :: lit " " ++ msg).

(** How the message of an error result starts, by the class of the
    exception that was caught. *)
Definition exception_prefix (e : exn) : str :=
  match exn_class_of e with
  | RequestException => lit "Request failed: "
  | OtherException => lit "Unexpected error: "
  end.

(** The 'organization' of a person can be read for its name: it is
    absent, falsy, or a mapping. *)
Definition organization_readable (d : list (str * value)) : Prop :=
  match dict_lookup d (lit "organization") with
  | None => True
  | Some v => truthy v = false \/ exists o, v = VDict o
  end.

(** The 'phone_numbers' of a person can be read for the first number:
    they are absent, falsy, or a list that starts with a mapping. *)
Definition phone_numbers_readable (d : list (str * value)) : Prop :=
  match dict_lookup d (lit "phone_numbers") with
  | None => True
  | Some v => truthy v = false \/ exists p rest, v = VList (VDict p :: rest)
  end.

(** Every field absent. *)
Definition nothing_shown : string -> str := fun _ => lit "N/A".

(** The four pre-flight checks of an entry point all pass. *)
Definition checks_pass (validate : str -> bool) (api_key ident linkedin_url : str)
  : Prop :=
  ~ blank api_key /\ ~ blank ident /\ validate ident = true
  /\ validate_linkedin_url linkedin_url = true.

End Requests.

(** ** Facts about patterns and the matcher *)

Module ReFacts.
Import Re.

Lemma matches_void_inv s : Matches Void s -> False.
Proof. inversion 1. Qed.

Lemma matches_eps_inv s : Matches Eps s -> s = [].
Proof. inversion 1; reflexivity. Qed.

Lemma matches_class_inv cs s :
  Matches (Class cs) s -> exists c, s = [c] /\ in_class cs c = true.
Proof. inversion 1; subst; eauto. Qed.

Lemma matches_cat_inv r1 r2 s :
  Matches (Cat r1 r2) s ->
  exists s1 s2, s = s1 ++ s2 /\ Matches r1 s1 /\ Matches r2 s2.
Proof. inversion 1; subst; eauto. Qed.

Lemma matches_alt_inv r1 r2 s :
  Matches (Alt r1 r2) s -> Matches r1 s \/ Matches r2 s.
Proof. inversion 1; subst; auto. Qed.

(** A non-empty match of [r*] starts with a non-empty match of [r]. *)
Lemma matches_star_cons r c s :
  Matches (Star r) (c :: s) ->
  exists s1 s2, s = s1 ++ s2 /\ Matches r (c :: s1) /\ Matches (Star r) s2.
Proof.
  intros Hm.
  remember (Star r) as r' eqn:Er. remember (c :: s) as s' eqn:Es.
  revert c s Es.
  induction Hm; intros c0 s0 Es; try discriminate.
  inversion Er; subst.
  destruct s1 as [|c1 s1]; simpl in Es.
  - apply IHHm2; auto.
  - inversion Es; subst. eauto.
Qed.

Lemma nullable_spec r : nullable r = true <-> Matches r [].
Proof.
  induction r; simpl.
  - split; [discriminate | intros Hm; destruct (matches_void_inv _ Hm)].
  - split; [constructor | reflexivity].
  - split; [discriminate |].
    intros Hm. apply matches_class_inv in Hm as (c & Hc & _). discriminate.
  - rewrite andb_true_iff, IHr1, IHr2. split.
    + intros [H1 H2]. apply (M_Cat _ _ [] []); assumption.
    + intros Hm. apply matches_cat_inv in Hm as (s1 & s2 & Hs & H1 & H2).
      symmetry in Hs. apply app_eq_nil in Hs as [-> ->]. auto.
  - rewrite orb_true_iff, IHr1, IHr2. split.
    + intros [H1|H2]; [apply M_AltL | apply M_AltR]; assumption.
    + apply matches_alt_inv.
  - split; [constructor | reflexivity].
Qed.

Lemma cat_spec r1 r2 s : Matches (cat r1 r2) s <-> Matches (Cat r1 r2) s.
Proof.
  destruct r1; simpl; try tauto.
  - split; [inversion 1|].
    intros Hm. apply matches_cat_inv in Hm as (s1 & s2 & _ & H1 & _).
    destruct (matches_void_inv _ H1).
  - split.
    + intros Hm. apply (M_Cat Eps r2 [] s); [constructor | assumption].
    + intros Hm. apply matches_cat_inv in Hm as (s1 & s2 & -> & H1 & H2).
      apply matches_eps_inv in H1 as ->. assumption.
Qed.

Lemma alt_spec r1 r2 s : Matches (alt r1 r2) s <-> Matches r1 s \/ Matches r2 s.
Proof.
  assert (Hv : forall t, Matches Void t <-> False)
    by (split; [apply matches_void_inv | tauto]).
  assert (Ha : Matches (Alt r1 r2) s <-> Matches r1 s \/ Matches r2 s).
  { split; [apply matches_alt_inv |].
    intros [H1|H2]; [apply M_AltL | apply M_AltR]; assumption. }
  destruct r1, r2; simpl; rewrite ?Hv; try assumption; tauto.
Qed.

Lemma deriv_spec c r : forall s, Matches (deriv c r) s <-> Matches r (c :: s).
Proof.
  induction r; intros s; simpl.
  - split; inversion 1.
  - split; inversion 1.
  - destruct (in_class cs c) eqn:Hc.
    + split.
      * intros Hm. apply matches_eps_inv in Hm as ->. constructor; assumption.
      * intros Hm. apply matches_class_inv in Hm as (c' & Hs & _).
        inversion Hs; subst. constructor.
    + split; [inversion 1|].
      intros Hm. apply matches_class_inv in Hm as (c' & Hs & Hc').
      inversion Hs; subst. congruence.
  - rewrite alt_spec, cat_spec. split.
    + intros [Hm|Hm].
      * apply matches_cat_inv in Hm as (s1 & s2 & -> & H1 & H2).
        apply IHr1 in H1. apply (M_Cat _ _ (c :: s1) s2); assumption.
      * destruct (nullable r1) eqn:Hn; [|destruct (matches_void_inv _ Hm)].
        apply nullable_spec in Hn. apply IHr2 in Hm.
        apply (M_Cat _ _ [] (c :: s)); assumption.
    + intros Hm. apply matches_cat_inv in Hm as (s1 & s2 & Hs & H1 & H2).
      destruct s1 as [|c1 s1]; simpl in Hs.
      * subst s2. right. apply nullable_spec in H1. rewrite H1.
        apply IHr2. assumption.
      * inversion Hs; subst. left. apply M_Cat; [apply IHr1|]; assumption.
  - rewrite alt_spec, IHr1, IHr2. split.
    + intros [H1|H2]; [apply M_AltL | apply M_AltR]; assumption.
    + apply matches_alt_inv.
  - rewrite cat_spec. split.
    + intros Hm. apply matches_cat_inv in Hm as (s1 & s2 & -> & H1 & H2).
      apply IHr in H1. apply (M_StarS _ (c :: s1) s2); assumption.
    + intros Hm. apply matches_star_cons in Hm as (s1 & s2 & -> & H1 & H2).
      apply M_Cat; [apply IHr|]; assumption.
Qed.

Lemma at_dollar_spec s : at_dollar s = true <-> s = [] \/ s = [LF].
Proof.
  destruct s as [|c [|c' s]]; simpl.
  - intuition.
  - rewrite N.eqb_eq. split; [intros ->; auto | intros [H|H]; congruence].
  - split; [discriminate | intros [H|H]; discriminate].
Qed.

Lemma match_full_spec s : forall r, match_full r s = true <-> Matches r s.
Proof.
  induction s as [|c s IH]; intros r; simpl.
  - apply nullable_spec.
  - rewrite IH. apply deriv_spec.
Qed.

Lemma matches_anchored_full r s : Matches r s -> MatchesAnchored r s.
Proof. intros Hm. exists s, []. rewrite app_nil_r. auto. Qed.

Lemma matches_anchored_newline r s : Matches r s -> MatchesAnchored r (s ++ [LF]).
Proof. intros Hm. exists s, [LF]. auto. Qed.

(** The matcher decides the anchored match. *)
Lemma match_anchored_spec s :
  forall r, match_anchored r s = true <-> MatchesAnchored r s.
Proof.
  unfold MatchesAnchored.
  induction s as [|c s IH]; intros r; simpl;
    rewrite orb_true_iff, andb_true_iff, nullable_spec.
  - split.
    + intros [[Hn _]|Hf]; [|discriminate]. exists [], []. auto.
    + intros (p & rest & Hs & Hm & _). symmetry in Hs.
      apply app_eq_nil in Hs as [-> ->]. auto.
  - rewrite IH. split.
    + intros [[Hn Hd]|(p & rest & -> & Hm & Hr)].
      * exists [], (c :: s). repeat split; try assumption.
        apply (at_dollar_spec (c :: s)). assumption.
      * exists (c :: p), rest. repeat split; try assumption.
        apply deriv_spec. assumption.
    + intros (p & rest & Hs & Hm & Hr).
      destruct p as [|c1 p]; simpl in Hs.
      * left. split; [assumption|]. subst rest.
        apply (at_dollar_spec (c :: s)). assumption.
      * inversion Hs; subst. right. exists p, rest.
        repeat split; try assumption. apply deriv_spec. assumption.
Qed.

(** A pattern none of whose character sets contains [c] matches no
    string that contains [c]. *)
Lemma avoids_spec c r s : avoids c r = true -> Matches r s -> c ∉ s.
Proof.
  intros Ha Hm. induction Hm; simpl in Ha;
    rewrite ?andb_true_iff in Ha.
  - apply not_elem_of_nil.
  - intros Hin. apply list_elem_of_singleton in Hin as ->.
    rewrite H in Ha. discriminate.
  - destruct Ha. rewrite elem_of_app. intuition.
  - destruct Ha. auto.
  - destruct Ha. auto.
  - apply not_elem_of_nil.
  - rewrite elem_of_app. intuition.
Qed.

End ReFacts.

(** Repetitions of a character set. *)
Module ClassFacts.
Import Re ReFacts.

Lemma matches_chr_inv c s : Matches (Chr c) s -> s = [c].
Proof.
  intros Hm. apply matches_class_inv in Hm as (c' & -> & Hc).
  unfold in_class in Hc. simpl in Hc.
  rewrite orb_false_r, andb_true_iff, !N.leb_le in Hc.
  f_equal. lia.
Qed.

Lemma matches_lit_inv l s : Matches (Lit l) s -> s = l.
Proof.
  revert s. induction l as [|c l IH]; intros s Hm; simpl in Hm.
  - apply matches_eps_inv. assumption.
  - apply matches_cat_inv in Hm as (s1 & s2 & -> & H1 & H2).
    apply matches_chr_inv in H1 as ->. apply IH in H2 as ->. reflexivity.
Qed.

Lemma matches_lit l : Matches (Lit l) l.
Proof.
  induction l as [|c l IH]; simpl; [constructor|].
  apply (M_Cat _ _ [c] l); [|assumption].
  constructor. unfold in_class. simpl. rewrite N.leb_refl. reflexivity.
Qed.

Lemma matches_star_class cs s :
  Matches (Star (Class cs)) s <-> Forall (in_set cs) s.
Proof.
  split.
  - induction s as [|c s IH]; intros Hm; [constructor|].
    apply matches_star_cons in Hm as (s1 & s2 & -> & H1 & H2).
    apply matches_class_inv in H1 as (c' & Hs & Hc).
    inversion Hs; subst. constructor; [exact Hc | apply IH; exact H2].
  - induction 1 as [|c s Hc _ IH]; [constructor|].
    apply (M_StarS _ [c] s); [constructor|]; assumption.
Qed.

Lemma matches_exactly_class n cs s :
  Matches (Exactly n (Class cs)) s <-> length s = n /\ Forall (in_set cs) s.
Proof.
  revert s. induction n as [|n IH]; intros s; simpl.
  - split.
    + intros Hm. apply matches_eps_inv in Hm as ->. auto.
    + intros [Hl _]. destruct s; [constructor | discriminate].
  - split.
    + intros Hm. apply matches_cat_inv in Hm as (s1 & s2 & -> & H1 & H2).
      apply matches_class_inv in H1 as (c & -> & Hc).
      apply IH in H2 as [Hl Hf]. simpl. split; [lia|].
      constructor; assumption.
    + intros [Hl Hf]. destruct s as [|c s]; [discriminate|].
      inversion Hf; subst. simpl in Hl.
      apply (M_Cat _ _ [c] s); [constructor; assumption|].
      apply IH. split; [lia | assumption].
Qed.

Lemma matches_upto_class n cs s :
  Matches (UpTo n (Class cs)) s <-> length s <= n /\ Forall (in_set cs) s.
Proof.
  revert s. induction n as [|n IH]; intros s; simpl.
  - split.
    + intros Hm. apply matches_eps_inv in Hm as ->. auto.
    + intros [Hl _]. destruct s; [constructor | simpl in Hl; lia].
  - unfold Opt. split.
    + intros Hm. apply matches_alt_inv in Hm as [Hm|Hm].
      * apply matches_cat_inv in Hm as (s1 & s2 & -> & H1 & H2).
        apply matches_class_inv in H1 as (c & -> & Hc).
        apply IH in H2 as [Hl Hf]. simpl. split; [lia|].
        constructor; assumption.
      * apply matches_eps_inv in Hm as ->. simpl. split; [lia | constructor].
    + intros [Hl Hf]. destruct s as [|c s]; [apply M_AltR; constructor|].
      inversion Hf; subst. simpl in Hl. apply M_AltL.
      apply (M_Cat _ _ [c] s); [constructor; assumption|].
      apply IH. split; [lia | assumption].
Qed.

(** [[cs]{lo,hi}] *)
Lemma matches_repeat_class_bounded lo hi cs s :
  Matches (Repeat lo (Some hi) (Class cs)) s ->
  lo <= length s <= lo + (hi - lo) /\ Forall (in_set cs) s.
Proof.
  unfold Repeat. intros Hm.
  apply matches_cat_inv in Hm as (s1 & s2 & -> & H1 & H2).
  apply matches_exactly_class in H1 as [Hl1 Hf1].
  apply matches_upto_class in H2 as [Hl2 Hf2].
  rewrite length_app, Forall_app. split; [lia | auto].
Qed.

(** [[cs]{lo,}] *)
Lemma matches_repeat_class_unbounded lo cs s :
  Matches (Repeat lo None (Class cs)) s <->
  lo <= length s /\ Forall (in_set cs) s.
Proof.
  unfold Repeat. split.
  - intros Hm. apply matches_cat_inv in Hm as (s1 & s2 & -> & H1 & H2).
    apply matches_exactly_class in H1 as [Hl1 Hf1].
    apply matches_star_class in H2.
    rewrite length_app, Forall_app. split; [lia | auto].
  - intros [Hl Hf]. rewrite <- (take_drop lo s).
    rewrite <- (take_drop lo s) in Hf. apply Forall_app in Hf as [Hf1 Hf2].
    apply M_Cat.
    + apply matches_exactly_class. split; [|assumption].
      rewrite length_take. lia.
    + apply matches_star_class. assumption.
Qed.

Lemma alnum_is_alnum_hyphen c : in_set alnum c -> in_set alnum_hyphen c.
Proof.
  unfold in_set, in_class, alnum, alnum_hyphen. simpl.
  rewrite !orb_true_iff. tauto.
Qed.

End ClassFacts.

(** ** What [validate_domain] accepts *)

Section DomainShape.
Import Re ReFacts ClassFacts.

(** Every full match of the domain pattern is a label, a dot and a TLD. *)
Lemma domain_pattern_shape p : Matches domain_pattern p -> label_dot_tld p.
Proof.
  unfold domain_pattern. intros Hm.
  apply matches_cat_inv in Hm as (s0 & q0 & -> & H0 & Hm).
  apply matches_cat_inv in Hm as (mid & q1 & -> & Hmid & Hm).
  apply matches_cat_inv in Hm as (opt & q2 & -> & Hopt & Hm).
  apply matches_cat_inv in Hm as (dot & tld & -> & Hdot & Htld).
  apply matches_class_inv in H0 as (c0 & -> & Hc0).
  apply matches_repeat_class_bounded in Hmid as [Hlmid Hfmid].
  apply matches_chr_inv in Hdot as ->.
  apply matches_repeat_class_unbounded in Htld as [Hltld Hftld].
  assert (Ho : length opt <= 1 /\ Forall (in_set alnum_hyphen) opt).
  { apply matches_alt_inv in Hopt as [Ho|Ho].
    - apply matches_class_inv in Ho as (c & -> & Hc). simpl. split; [lia|].
      constructor; [apply alnum_is_alnum_hyphen; exact Hc | constructor].
    - apply matches_eps_inv in Ho as ->. simpl. split; [lia | constructor]. }
  destruct Ho as [Hlo Hfo].
  exists ([c0] ++ mid ++ opt), tld. repeat split.
  - rewrite <- !app_assoc. reflexivity.
  - simpl. lia.
  - simpl. rewrite length_app. simpl in Hlmid. lia.
  - constructor; [apply alnum_is_alnum_hyphen; exact Hc0|].
    apply Forall_app. auto.
  - simpl. intros Heq. inversion Heq; subst. vm_compute in Hc0. discriminate.
  - assumption.
  - assumption.
Qed.

(** What [validate_domain] accepts: a full match of the pattern,
    possibly followed by one newline. *)
Lemma validate_domain_true s :
  validate_domain s = true <-> MatchesAnchored domain_pattern s.
Proof.
  unfold validate_domain. destruct s as [|c s]; simpl is_empty; cbv iota.
  - split; [discriminate|].
    intros (p & rest & Hs & Hm & _). symmetry in Hs.
    apply app_eq_nil in Hs as [-> _].
    apply nullable_spec in Hm. vm_compute in Hm. discriminate.
  - apply match_anchored_spec.
Qed.

End DomainShape.

(** ** The validators: what the specification claims *)

Section Validators.
Import Re ReFacts ClassFacts.

(** Splitting a concrete string at a dot, position by position. *)
Ltac split_at_dot label Hs :=
  cbn in Hs;
  repeat (destruct label as [|? label]; cbn in Hs;
          [try discriminate Hs; injection Hs as Hs; subst
          |try discriminate Hs; injection Hs as ? Hs; subst]).

Lemma not_strict_trailing_hyphen : ~ strict_label_dot_tld (lit "a-.com").
Proof.
  intros (label & tld & Hs & _ & _ & _ & Hlast & _).
  split_at_dot label Hs; try discriminate.
  apply Hlast. reflexivity.
Qed.

Lemma no_alpha_suffix_after_newline :
  ~ dotted_alpha_suffix (lit "example.com" ++ [LF]).
Proof.
  intros (p & t & Hs & Hf & _).
  split_at_dot p Hs; try discriminate.
  rewrite !Forall_cons in Hf. destruct Hf as (_ & _ & _ & Hnl & _).
  vm_compute in Hnl. discriminate.
Qed.

(** C6, as stated, fails: [validate_domain] accepts "a-.com", whose
    label ends with a hyphen, and "example.com" followed by a newline,
    which is not a label, a dot and a TLD. *)
Lemma validate_domain_accepts_trailing_hyphen :
  (validate_domain (lit "a-.com") = true
   /\ ~ strict_label_dot_tld (lit "a-.com"))
  /\ (validate_domain (lit "example.com" ++ [LF]) = true
      /\ ~ strict_label_dot_tld (lit "example.com" ++ [LF])).
Proof.
  split; split.
  - vm_compute. reflexivity.
  - apply not_strict_trailing_hyphen.
  - vm_compute. reflexivity.
  - intros (label & tld & Hs & _ & _ & _ & _ & Hf & Hl).
    apply no_alpha_suffix_after_newline. exists label, tld. auto.
Qed.

(** C6, amended: every string that [validate_domain] accepts is, once
    one final newline (if any) is removed, a label of 1-63
    alphanumeric/hyphen characters that does not start with a hyphen,
    followed by a dot and an alphabetic TLD of length at least 2. *)
Theorem validate_domain_accepts_label_dot_tld s :
  validate_domain s = true ->
  label_dot_tld s \/ exists s', s = s' ++ [LF] /\ label_dot_tld s'.
Proof.
  intros Hv. apply validate_domain_true in Hv as (p & rest & -> & Hm & Hr).
  apply domain_pattern_shape in Hm.
  destruct Hr as [-> | ->].
  - left. rewrite app_nil_r. assumption.
  - right. eauto.
Qed.

Lemma validate_domain_accepts_label_dot_tld_witness :
  validate_domain (lit "example.com") = true
  /\ (label_dot_tld (lit "example.com")
      \/ exists s', lit "example.com" = s' ++ [LF] /\ label_dot_tld s').
Proof.
  split; [vm_compute; reflexivity|].
  apply (validate_domain_accepts_label_dot_tld (lit "example.com")).
  vm_compute. reflexivity.
Defined.

(** C7, as stated, fails: "example.com" followed by a newline has no
    dot-separated alphabetic suffix, and [validate_domain] accepts it. *)
Lemma validate_domain_accepts_without_alpha_suffix :
  ~ dotted_alpha_suffix (lit "example.com" ++ [LF])
  /\ validate_domain (lit "example.com" ++ [LF]) = true.
Proof.
  split; [apply no_alpha_suffix_after_newline | vm_compute; reflexivity].
Qed.

(** C7, amended: [validate_domain] accepts every string that matches
    the pattern (in full, or as [re.match] reads its [$]); it rejects
    the empty string, and every string for which neither the string
    itself nor the string without one final newline has a dot-separated
    alphabetic suffix of length at least 2. *)
Theorem validate_domain_pattern_and_suffix :
  (forall s, Matches domain_pattern s -> validate_domain s = true)
  /\ (forall s, MatchesAnchored domain_pattern s -> validate_domain s = true)
  /\ validate_domain [] = false
  /\ (forall s,
        ~ dotted_alpha_suffix s ->
        (forall s', s = s' ++ [LF] -> ~ dotted_alpha_suffix s') ->
        validate_domain s = false).
Proof.
  split; [|split; [|split]].
  - intros s Hm. apply validate_domain_true, matches_anchored_full, Hm.
  - intros s Hm. apply validate_domain_true, Hm.
  - reflexivity.
  - intros s Hno Hno'. apply not_true_is_false. intros Hv.
    apply validate_domain_true in Hv as (p & rest & -> & Hm & Hr).
    apply domain_pattern_shape in Hm
      as (label & tld & -> & _ & _ & _ & Hf & Hl).
    destruct Hr as [-> | ->].
    + apply Hno. exists label, tld. rewrite app_nil_r. auto.
    + apply (Hno' (label ++ DOT :: tld)); [reflexivity|].
      exists label, tld. auto.
Qed.

Lemma validate_domain_pattern_and_suffix_witness :
  validate_domain (lit "example.com") = true
  /\ validate_domain (lit "example.com" ++ [LF]) = true
  /\ validate_domain (lit "localhost") = false.
Proof.
  destruct validate_domain_pattern_and_suffix as (Hfull & Hanch & _ & Hrej).
  split; [|split].
  - apply Hfull. apply match_full_spec. vm_compute. reflexivity.
  - apply Hanch. apply match_anchored_spec. vm_compute. reflexivity.
  - apply Hrej.
    + intros (p & t & Hs & _). split_at_dot p Hs; discriminate.
    + intros s' Hs. exfalso.
      assert (Hl : last (lit "localhost") = last (s' ++ [LF])) by (rewrite Hs; reflexivity).
      rewrite last_snoc in Hl. vm_compute in Hl. discriminate.
Defined.

Lemma validate_linkedin_url_true c s :
  validate_linkedin_url (c :: s) = true
  <-> MatchesAnchored linkedin_pattern (c :: s).
Proof. unfold validate_linkedin_url. simpl is_empty. apply match_anchored_spec. Qed.

Lemma validate_email_true s :
  validate_email s = true <-> MatchesAnchored email_pattern s.
Proof.
  unfold validate_email. destruct s as [|c s]; simpl is_empty; cbv iota.
  - split; [discriminate|].
    intros (p & rest & Hs & Hm & _). symmetry in Hs.
    apply app_eq_nil in Hs as [-> _].
    apply nullable_spec in Hm. vm_compute in Hm. discriminate.
  - apply match_anchored_spec.
Qed.

(** C8, as stated, fails: a profile URL followed by a newline is
    accepted, and it does not match the pattern. *)
Lemma validate_linkedin_url_accepts_no_match :
  validate_linkedin_url (lit "https://linkedin.com/in/janedoe" ++ [LF]) = true
  /\ ~ Matches linkedin_pattern (lit "https://linkedin.com/in/janedoe" ++ [LF]).
Proof.
  split; [vm_compute; reflexivity|].
  intros Hm. apply match_full_spec in Hm. vm_compute in Hm. discriminate Hm.
Qed.

(** C8, amended: [validate_linkedin_url] accepts the empty string; a
    non-empty string it accepts exactly when the string, or the string
    without one final newline, matches
    [^https?://(www\.)?linkedin\.com/(in|company)/[A-Za-z0-9-]+/?$]; and it
    decides the three sample URLs as the specification says. *)
Theorem validate_linkedin_url_spec :
  validate_linkedin_url [] = true
  /\ (forall s, s <> [] ->
        (validate_linkedin_url s = true
         <-> Matches linkedin_pattern s
             \/ exists s', s = s' ++ [LF] /\ Matches linkedin_pattern s'))
  /\ validate_linkedin_url (lit "https://linkedin.com/in/janedoe") = true
  /\ validate_linkedin_url (lit "https://linkedin.com/in/jane doe") = false
  /\ validate_linkedin_url (lit "ftp://linkedin.com/in/jane") = false.
Proof.
  split; [reflexivity|]. split.
  - intros [|c s] Hne; [congruence|].
    rewrite validate_linkedin_url_true. unfold MatchesAnchored. split.
    + intros (p & rest & Heq & Hm & [-> | ->]).
      * left. rewrite app_nil_r in Heq. rewrite Heq. exact Hm.
      * right. eauto.
    + intros [Hm|(s' & Heq & Hm)].
      * exists (c :: s), []. rewrite app_nil_r. auto.
      * exists s', [LF]. auto.
  - repeat split; vm_compute; reflexivity.
Qed.

Lemma validate_linkedin_url_spec_witness :
  Matches linkedin_pattern (lit "https://www.linkedin.com/company/acme/")
  \/ exists s',
       lit "https://www.linkedin.com/company/acme/" = s' ++ [LF]
       /\ Matches linkedin_pattern s'.
Proof.
  destruct validate_linkedin_url_spec as (_ & Hiff & _).
  apply (Hiff (lit "https://www.linkedin.com/company/acme/")).
  - discriminate.
  - vm_compute. reflexivity.
Defined.

Lemma snoc_not_empty (s : str) c : is_empty (s ++ [c]) = false.
Proof. destruct s; reflexivity. Qed.

Lemma no_full_match_with_newline r s :
  avoids LF r = true -> ~ Matches r (s ++ [LF]).
Proof.
  intros Ha Hm. apply (avoids_spec _ _ _ Ha Hm).
  apply elem_of_app. right. apply list_elem_of_singleton. reflexivity.
Qed.

(** C10: each validator accepts every full match of its pattern
    followed by one newline, a string that is itself no full match of
    the pattern; so [validate_domain] accepts "example.com\n". *)
Theorem validators_accept_final_newline :
  (forall s, Matches domain_pattern s ->
     validate_domain (s ++ [LF]) = true /\ ~ Matches domain_pattern (s ++ [LF]))
  /\ (forall s, Matches email_pattern s ->
        validate_email (s ++ [LF]) = true /\ ~ Matches email_pattern (s ++ [LF]))
  /\ (forall s, Matches linkedin_pattern s ->
        validate_linkedin_url (s ++ [LF]) = true
        /\ ~ Matches linkedin_pattern (s ++ [LF]))
  /\ validate_domain (lit "example.com" ++ [LF]) = true.
Proof.
  split; [|split; [|split]].
  - intros s Hm. split.
    + apply validate_domain_true, matches_anchored_newline, Hm.
    + apply no_full_match_with_newline. vm_compute. reflexivity.
  - intros s Hm. split.
    + apply validate_email_true, matches_anchored_newline, Hm.
    + apply no_full_match_with_newline. vm_compute. reflexivity.
  - intros s Hm. split.
    + unfold validate_linkedin_url. rewrite snoc_not_empty.
      apply match_anchored_spec, matches_anchored_newline, Hm.
    + apply no_full_match_with_newline. vm_compute. reflexivity.
  - vm_compute. reflexivity.
Qed.

Lemma validators_accept_final_newline_witness :
  validate_domain (lit "example.com" ++ [LF]) = true
  /\ validate_email (lit "a@b.co" ++ [LF]) = true
  /\ validate_linkedin_url (lit "https://linkedin.com/in/janedoe" ++ [LF]) = true.
Proof.
  destruct validators_accept_final_newline as (Hd & He & Hl & _).
  split; [|split].
  - apply (Hd (lit "example.com")). apply match_full_spec. vm_compute. reflexivity.
  - apply (He (lit "a@b.co")). apply match_full_spec. vm_compute. reflexivity.
  - apply (Hl (lit "https://linkedin.com/in/janedoe")).
    apply match_full_spec. vm_compute. reflexivity.
Defined.

End Validators.

(** ** The enrichment client *)

Section Client.
Context `{PyRuntime} (requests_post : request -> Result response).

Ltac run_client :=
  unfold enrich_company, enrich_contact, try_except, post, on_exception,
    lift, py_get, mbind, M_bind, mret, M_ret;
  cbv zeta beta.

(** Every outcome of the HTTP call, case by case. *)
Ltac client_cases :=
  run_client;
  match goal with
  | |- context [requests_post ?r] =>
      exists r;
      destruct (requests_post r) as [e|resp] eqn:Hpost;
      [destruct e as [[|] msg]
      |destruct (status_code resp =? 200)%Z eqn:Hcode;
       [apply Z.eqb_eq in Hcode;
        destruct (resp_json resp) as [[[|] msg]|[| | | | | |d]] eqn:Hjson
       |apply Z.eqb_neq in Hcode]]
  end;
  eexists; (split; [reflexivity|]).

Ltac absurd_case :=
  intros; simplify_eq; try congruence;
  repeat match goal with
  | Ha : ?x = inl _, Hb : ?x = _ |- _ => rewrite Ha in Hb; simplify_eq
  | Ha : ?x = inr _, Hb : ?x = _ |- _ => rewrite Ha in Hb; simplify_eq
  end;
  try match goal with Hd : forall d, VDict ?d0 <> VDict d |- _ =>
        exfalso; exact (Hd d0 eq_refl) end.

(** C3, amended: whatever the HTTP call does, [enrich_company] and
    [enrich_contact] return a result and raise nothing: a status
    other than 200 gives an error result whose message carries the
    status code and the raw body; an exception of the class
    [RequestException], raised by the call itself (a transport failure)
    or by the decoding of a 200 body, gives "Request failed: " and the
    text of the exception; every other exception, and a 200 body that
    is no JSON object, gives "Unexpected error: " and the text of the
    exception. *)
Theorem client_never_raises self ident a b c log :
  (exists req res,
     enrich_company requests_post self ident a b c log = (inr res, log ++ [req])
     /\ normalized (requests_post req) res)
  /\ (exists req res,
        enrich_contact requests_post self ident a b c log = (inr res, log ++ [req])
        /\ normalized (requests_post req) res).
Proof.
  split; client_cases; unfold normalized, error_result;
    repeat split; absurd_case; reflexivity.
Qed.

(** C4: a result of [enrich_company] (of [enrich_contact]) with
    status success carries as payload what the decoded response has
    under 'organization' ('person'), the empty mapping when the key is
    absent; a result with status error carries the empty mapping and a
    non-empty message. *)
Theorem client_result_invariant self ident a b c log :
  (exists req res,
     enrich_company requests_post self ident a b c log = (inr res, log ++ [req])
     /\ result_invariant "organization" (requests_post req) res)
  /\ (exists req res,
        enrich_contact requests_post self ident a b c log = (inr res, log ++ [req])
        /\ result_invariant "person" (requests_post req) res).
Proof.
  split; client_cases; unfold result_invariant; cbn [status data message];
    (split; [first [left; reflexivity | right; reflexivity]|]);
    (split; [intros Hs; first [discriminate Hs | eauto 10]
            |intros Hs; first [discriminate Hs | split; [reflexivity | discriminate]]]).
Qed.

End Client.

(** ** Trimming *)

Section Trimming.

Lemma is_empty_true (s : str) : is_empty s = true <-> s = [].
Proof. destruct s; simpl; split; congruence. Qed.

Lemma is_empty_false (s : str) : is_empty s = false <-> s <> [].
Proof. destruct s; simpl; split; congruence. Qed.

Lemma lstrip_nil s : lstrip s = [] <-> all_space s.
Proof.
  induction s as [|c s IH]; simpl.
  - split; [constructor | reflexivity].
  - destruct (is_space c) eqn:Hc.
    + rewrite IH. split.
      * intros Hs. constructor; assumption.
      * intros Hs. inversion Hs; assumption.
    + split; [discriminate|].
      intros Hs. inversion Hs; congruence.
Qed.

Lemma lstrip_head s c t : lstrip s = c :: t -> is_space c = false.
Proof.
  induction s as [|c' s IH]; simpl; [discriminate|].
  destruct (is_space c') eqn:Hc; [exact IH|].
  intros Heq. inversion Heq; subst. exact Hc.
Qed.

Lemma rev_nil_iff (s : str) : rev s = [] <-> s = [].
Proof.
  split; [|intros ->; reflexivity].
  intros Hr. apply (f_equal (@rev N)) in Hr.
  rewrite rev_involutive in Hr. exact Hr.
Qed.

(** Nothing is left after trimming exactly when every character is
    white space. *)
Lemma strip_nil s : strip s = [] <-> all_space s.
Proof.
  unfold strip, rstrip. rewrite rev_nil_iff, lstrip_nil. split.
  - intros Hs. apply lstrip_nil.
    destruct (lstrip s) as [|c t] eqn:Hl; [reflexivity|].
    apply lstrip_head in Hl.
    assert (Hc : is_space c = true).
    { unfold all_space in Hs. rewrite Forall_forall in Hs. apply Hs.
      apply list_elem_of_In, in_rev. rewrite rev_involutive. left. reflexivity. }
    congruence.
  - intros Hs. apply lstrip_nil in Hs. rewrite Hs. constructor.
Qed.

End Trimming.

(** ** The entry points: pre-flight checks *)

Section Preflight.
Context `{PyRuntime} (requests_post : request -> Result response).
Import Re ReFacts ClassFacts.

Lemma not_blank s : ~ blank s -> is_empty (strip s) = false.
Proof. intros Hb. apply is_empty_false. exact Hb. Qed.

Lemma is_blank s : blank s -> is_empty (strip s) = true.
Proof. intros Hb. apply is_empty_true. exact Hb. Qed.

Ltac check_passes :=
  repeat match goal with
  | Hb : ~ blank ?s |- context [is_empty (strip ?s)] => rewrite (not_blank s Hb)
  | Hb : blank ?s |- context [is_empty (strip ?s)] => rewrite (is_blank s Hb)
  | Hv : ?v = _ |- context [negb ?v] => rewrite Hv
  | Hn : ?s <> [] |- context [is_empty ?s] =>
      rewrite (proj2 (is_empty_false s) Hn)
  end; cbn [negb andb].

(** C2: the four checks run in order, the first one that fails
    decides the text returned, and the log of requests is left as it
    was; the call with an empty API key returns the text asking for the
    key. *)
Theorem preflight_first_failure_wins api_key ident linkedin_url x y log :
  (blank api_key ->
     enrich_company_data requests_post api_key ident linkedin_url x y log
     = (inr API_KEY_REQUIRED, log)
     /\ enrich_contact_data requests_post api_key ident linkedin_url x y log
        = (inr API_KEY_REQUIRED, log))
  /\ (~ blank api_key -> blank ident ->
        enrich_company_data requests_post api_key ident linkedin_url x y log
        = (inr DOMAIN_REQUIRED, log)
        /\ enrich_contact_data requests_post api_key ident linkedin_url x y log
           = (inr EMAIL_REQUIRED, log))
  /\ (~ blank api_key -> ~ blank ident -> validate_domain ident = false ->
        enrich_company_data requests_post api_key ident linkedin_url x y log
        = (inr DOMAIN_INVALID, log))
  /\ (~ blank api_key -> ~ blank ident -> validate_email ident = false ->
        enrich_contact_data requests_post api_key ident linkedin_url x y log
        = (inr EMAIL_INVALID, log))
  /\ (~ blank api_key -> ~ blank ident -> validate_domain ident = true ->
        linkedin_url <> [] -> validate_linkedin_url linkedin_url = false ->
        enrich_company_data requests_post api_key ident linkedin_url x y log
        = (inr COMPANY_LINKEDIN_INVALID, log))
  /\ (~ blank api_key -> ~ blank ident -> validate_email ident = true ->
        linkedin_url <> [] -> validate_linkedin_url linkedin_url = false ->
        enrich_contact_data requests_post api_key ident linkedin_url x y log
        = (inr CONTACT_LINKEDIN_INVALID, log))
  /\ enrich_company_data requests_post [] (lit "example.com") [] [] [] log
     = (inr API_KEY_REQUIRED, log).
Proof.
  unfold enrich_company_data, enrich_contact_data.
  repeat split; intros; check_passes; reflexivity.
Qed.

(** *** What is sent once the checks pass *)

Lemma strip_or_None_given (k : string) (s : str) (m : gmap str str) :
  set_if_given k (strip_or_None s) m
  = from_option (fun v => <[lit k := v]> m) m (trimmed_or_absent s).
Proof.
  unfold set_if_given, strip_or_None, trimmed_or_absent.
  destruct s as [|c s]; [reflexivity|]. simpl is_empty at 1. cbv iota.
  destruct (strip (c :: s)); reflexivity.
Qed.

Lemma lookup_optional (k k' : string) (s : str) (m : gmap str str) :
  from_option (fun v => <[lit k := v]> m) m (trimmed_or_absent s) !! lit k'
  = if decide (lit k = lit k') then
      match trimmed_or_absent s with Some v => Some v | None => m !! lit k' end
    else m !! lit k'.
Proof.
  destruct (trimmed_or_absent s) as [v|]; simpl.
  - rewrite lookup_insert. destruct (decide (lit k = lit k')); reflexivity.
  - destruct (decide (lit k = lit k')); reflexivity.
Qed.

Ltac run_client :=
  unfold enrich_company, enrich_contact, try_except, post, on_exception,
    lift, py_get, mbind, M_bind, mret, M_ret;
  cbv zeta beta.

(** The client sends exactly one request, whatever comes back. *)
Lemma enrich_company_sends self ident a b c log :
  exists res,
    enrich_company requests_post self ident a b c log
    = (inr res,
       log ++ [Request (base_url self ++ lit "/organizations/enrich")
                 (set_if_given "country" c
                    (set_if_given "name" b
                       (set_if_given "linkedin_url" a {[lit "domain" := ident]})))
                 (headers self)]).
Proof.
  run_client.
  destruct (requests_post _) as [[[|] ?]|resp];
    [eexists; reflexivity | eexists; reflexivity |].
  destruct (status_code resp =? 200)%Z; [|eexists; reflexivity].
  destruct (resp_json resp) as [[[|] ?]|[]]; eexists; reflexivity.
Qed.

Lemma enrich_contact_sends self ident a b c log :
  exists res,
    enrich_contact requests_post self ident a b c log
    = (inr res,
       log ++ [Request (base_url self ++ lit "/people/match")
                 (set_if_given "last_name" c
                    (set_if_given "first_name" b
                       (set_if_given "linkedin_url" a {[lit "email" := ident]})))
                 (headers self)]).
Proof.
  run_client.
  destruct (requests_post _) as [[[|] ?]|resp];
    [eexists; reflexivity | eexists; reflexivity |].
  destruct (status_code resp =? 200)%Z; [|eexists; reflexivity].
  destruct (resp_json resp) as [[[|] ?]|[]]; eexists; reflexivity.
Qed.

(** A string the LinkedIn pattern matches starts with the letter h. *)
Lemma linkedin_starts_with_h s :
  MatchesAnchored linkedin_pattern s -> exists t, s = 104%N :: t.
Proof.
  intros (p & rest & -> & Hm & _). unfold linkedin_pattern in Hm.
  apply matches_cat_inv in Hm as (s1 & s2 & -> & H1 & _).
  apply matches_lit_inv in H1 as ->. eexists. reflexivity.
Qed.

Lemma blank_linkedin_url_invalid l :
  l <> [] -> blank l -> validate_linkedin_url l = false.
Proof.
  intros Hne Hb. apply not_true_is_false. intros Hv.
  destruct l as [|c l]; [congruence|].
  apply validate_linkedin_url_true, linkedin_starts_with_h in Hv as (t & Heq).
  inversion Heq; subst.
  apply strip_nil in Hb. inversion Hb as [|? ? Hc _]; subst.
  vm_compute in Hc. discriminate.
Qed.

Ltac lookup_field :=
  rewrite ?strip_or_None_given;
  repeat (rewrite lookup_optional;
          destruct (decide (lit _ = lit _)) as [Heq|Hne];
          [try discriminate Heq; try clear Heq;
           match goal with
           | |- context [trimmed_or_absent ?s] =>
               destruct (trimmed_or_absent s); [reflexivity|]
           end
          |try (exfalso; apply Hne; reflexivity); try clear Hne]);
  first [apply lookup_singleton_eq
        |apply lookup_singleton_ne; discriminate].

(** C5, amended: once the checks pass, every optional field goes to
    the client trimmed, and one that is empty after trimming is left
    out of the request; the LinkedIn check itself reads the value as
    entered, so that a non-empty LinkedIn URL of white space only is
    answered with the LinkedIn-format error and nothing is sent. *)
Theorem optional_fields_trimmed_in_request api_key ident linkedin_url x y log :
  ~ blank api_key -> ~ blank ident ->
  (validate_domain ident = true ->
     (validate_linkedin_url linkedin_url = true ->
        exists req out,
          enrich_company_data requests_post api_key ident linkedin_url x y log
          = (out, log ++ [req])
          /\ req_json req !! lit "domain" = Some (strip ident)
          /\ req_json req !! lit "linkedin_url" = trimmed_or_absent linkedin_url
          /\ req_json req !! lit "name" = trimmed_or_absent x
          /\ req_json req !! lit "country" = trimmed_or_absent y)
     /\ (linkedin_url <> [] -> blank linkedin_url ->
           enrich_company_data requests_post api_key ident linkedin_url x y log
           = (inr COMPANY_LINKEDIN_INVALID, log)))
  /\ (validate_email ident = true ->
        (validate_linkedin_url linkedin_url = true ->
           exists req out,
             enrich_contact_data requests_post api_key ident linkedin_url x y log
             = (out, log ++ [req])
             /\ req_json req !! lit "email" = Some (strip ident)
             /\ req_json req !! lit "linkedin_url" = trimmed_or_absent linkedin_url
             /\ req_json req !! lit "first_name" = trimmed_or_absent x
             /\ req_json req !! lit "last_name" = trimmed_or_absent y)
        /\ (linkedin_url <> [] -> blank linkedin_url ->
              enrich_contact_data requests_post api_key ident linkedin_url x y log
              = (inr CONTACT_LINKEDIN_INVALID, log))).
Proof.
  intros Hkey Hident.
  unfold enrich_company_data, enrich_contact_data.
  rewrite (not_blank _ Hkey), (not_blank _ Hident).
  split; intros Hvalid; rewrite Hvalid; cbn [negb]; split.
  - intros Hl. rewrite Hl, andb_false_r.
    unfold mbind at 1, M_bind at 1.
    destruct (enrich_company_sends (ApolloAPI_init api_key) (strip ident)
                (strip_or_None linkedin_url) (strip_or_None x)
                (strip_or_None y) log) as [res ->].
    unfold lift. eexists _, _. split; [reflexivity|].
    cbn [req_json]. repeat split; lookup_field.
  - intros Hne Hb.
    rewrite (blank_linkedin_url_invalid _ Hne Hb), (proj2 (is_empty_false _) Hne).
    reflexivity.
  - intros Hl. rewrite Hl, andb_false_r.
    unfold mbind at 1, M_bind at 1.
    destruct (enrich_contact_sends (ApolloAPI_init api_key) (strip ident)
                (strip_or_None linkedin_url) (strip_or_None x)
                (strip_or_None y) log) as [res ->].
    unfold lift. eexists _, _. split; [reflexivity|].
    cbn [req_json]. repeat split; lookup_field.
  - intros Hne Hb.
    rewrite (blank_linkedin_url_invalid _ Hne Hb), (proj2 (is_empty_false _) Hne).
    reflexivity.
Qed.

(** C9: with a non-blank key, the domain "example.com" and a network
    that answers HTTP 200 with a document whose 'organization' is
    {"name": "Example Corp", "domain": "example.com"}, the text returned
    is the header line with the message of the result, then the fields
    Name, Domain, Website, LinkedIn, Industry, Company Size, Location,
    Founded, Description in this order, with "Example Corp" for the name
    and N/A for every field the payload lacks. *)
Theorem example_company_report api_key linkedin_url x y log resp doc :
  ~ blank api_key ->
  validate_linkedin_url linkedin_url = true ->
  (forall req, requests_post req = inr resp) ->
  status_code resp = 200%Z ->
  resp_json resp = inr (VDict doc) ->
  dict_lookup doc (lit "organization") = Some example_organization ->
  exists req,
    enrich_company_data requests_post api_key (lit "example.com") linkedin_url x y log
    = (inr example_report, log ++ [req]).
Proof.
  intros Hkey Hl Hpost Hcode Hjson Horg.
  unfold enrich_company_data.
  rewrite (not_blank _ Hkey), Hl, andb_false_r.
  replace (is_empty (strip (lit "example.com"))) with false by (vm_compute; reflexivity).
  replace (validate_domain (lit "example.com")) with true by (vm_compute; reflexivity).
  cbn [negb]. run_client.
  rewrite Hpost, Hcode. cbn [Z.eqb Pos.eqb]. rewrite Hjson, Horg.
  eexists. reflexivity.
Qed.

End Preflight.

(** ** The formatter *)

Section Formatter.
Context `{PyRuntime}.

Lemma py_get_dict d k dflt :
  py_get (VDict d) k dflt = inr (from_option id dflt (dict_lookup d (lit k))).
Proof. reflexivity. Qed.

Lemma shown_get d k :
  py_str (from_option id NA (dict_lookup d (lit k))) = shown d k.
Proof. unfold shown. destruct (dict_lookup d (lit k)); reflexivity. Qed.

Lemma success_is_success : decide (lit "success" = lit "success") = left eq_refl.
Proof. vm_compute. reflexivity. Qed.

(** C1, amended: for a success result whose payload is a mapping, the
    report is the header with the message followed by the fixed fields
    in order, and a plain field shows N/A exactly when its key is
    absent from the payload: a key that is present shows [str] of its
    value, also when that value is falsy (the empty string shows as
    nothing). Only the Company and Phone fields of a contact fall back
    to N/A when the 'organization' or 'phone_numbers' value is falsy as
    well as when it is absent. *)
Theorem formatter_falls_back_on_absent_keys :
  (forall d msg,
     format_company (success_result (VDict d) msg)
     = inr (report BAR_CHART " **Enriched Company Data:**" msg
              (company_cells (shown d))))
  /\ (forall d msg,
        format_contact (success_result (VDict d) msg)
        = (company ← company_cell (VDict d);
           phone ← phone_cell (VDict d);
           mret (report BUST " **Enriched Contact Data:**" msg
                   (contact_cells (shown d) (py_str company) (py_str phone)))))
  /\ (forall d k, dict_lookup d (lit k) = None -> shown d k = lit "N/A")
  /\ (forall d k v, dict_lookup d (lit k) = Some v -> shown d k = py_str v)
  /\ (forall d k, dict_lookup d (lit k) = Some (VStr []) -> shown d k = [])
  /\ (forall d,
        (forall v, dict_lookup d (lit "organization") = Some v -> truthy v = false) ->
        company_cell (VDict d) = inr NA)
  /\ (forall d,
        (forall v, dict_lookup d (lit "phone_numbers") = Some v -> truthy v = false) ->
        phone_cell (VDict d) = inr NA).
Proof.
  repeat split.
  - intros d msg. unfold format_company, success_result.
    cbn [status data message]. rewrite success_is_success.
    rewrite !py_get_dict. cbn [mbind Result_bind mret Result_ret].
    rewrite !shown_get.
    unfold report, unlines, company_cells, bullet.
    cbn [List.map concat app fst snd lit].
    repeat (rewrite <- app_assoc; cbn [app]). reflexivity.
  - intros d msg. unfold format_contact, success_result.
    cbn [status data message]. rewrite success_is_success.
    rewrite !py_get_dict. cbn [mbind Result_bind mret Result_ret].
    destruct (company_cell (VDict d)) as [e|company]; [reflexivity|].
    destruct (phone_cell (VDict d)) as [e|phone]; [reflexivity|].
    cbn [mbind Result_bind mret Result_ret]. rewrite !shown_get.
    unfold report, unlines, contact_cells, bullet.
    cbn [List.map concat app fst snd lit].
    repeat (rewrite <- app_assoc; cbn [app]). reflexivity.
  - intros d k Hk. unfold shown. rewrite Hk. reflexivity.
  - intros d k v Hk. unfold shown. rewrite Hk. reflexivity.
  - intros d k Hk. unfold shown. rewrite Hk. reflexivity.
  - intros d Hf. unfold company_cell. rewrite !py_get_dict.
    cbn [mbind Result_bind mret Result_ret].
    destruct (dict_lookup d (lit "organization")) as [v|] eqn:Hv; cbn [from_option id].
    + rewrite (Hf v eq_refl). reflexivity.
    + reflexivity.
  - intros d Hf. unfold phone_cell. rewrite !py_get_dict.
    cbn [mbind Result_bind mret Result_ret].
    destruct (dict_lookup d (lit "phone_numbers")) as [v|] eqn:Hv; cbn [from_option id].
    + rewrite (Hf v eq_refl). reflexivity.
    + reflexivity.
Qed.

End Formatter.

(** ** Worked cases *)

Section Cases.
#[local] Existing Instance plain_runtime.

(** C1, as stated, fails: a name that is present and empty is falsy,
    and the report shows an empty name, not N/A. *)
Lemma empty_name_is_not_replaced :
  dict_lookup empty_name_payload (lit "name") = Some (VStr [])
  /\ truthy (VStr []) = false
  /\ format_company (success_result (VDict empty_name_payload) (lit "ok"))
     <> inr (report BAR_CHART " **Enriched Company Data:**" (lit "ok")
               (company_cells (shown_unless_falsy empty_name_payload)))
  /\ format_company (success_result (VDict empty_name_payload) (lit "ok"))
     = inr (unlines
              [CHECK_MARK :: lit " ok";
               [];
               BAR_CHART :: lit " **Enriched Company Data:**";
               BULLET :: lit " **Name:** ";
               BULLET :: lit " **Domain:** N/A";
               BULLET :: lit " **Website:** N/A";
               BULLET :: lit " **LinkedIn:** N/A";
               BULLET :: lit " **Industry:** N/A";
               BULLET :: lit " **Company Size:** N/A";
               BULLET :: lit " **Location:** N/A, N/A, N/A";
               BULLET :: lit " **Founded:** N/A";
               BULLET :: lit " **Description:** N/A"]).
Proof.
  split; [reflexivity|]. split; [reflexivity|]. split.
  - vm_compute. intros Heq. discriminate Heq.
  - vm_compute. reflexivity.
Qed.

Lemma formatter_falls_back_on_absent_keys_witness :
  shown empty_name_payload "domain" = lit "N/A"
  /\ shown empty_name_payload "name" = []
  /\ company_cell (VDict [(lit "organization", VDict [])]) = inr NA
  /\ phone_cell (VDict [(lit "phone_numbers", VList [])]) = inr NA.
Proof.
  destruct formatter_falls_back_on_absent_keys
    as (_ & _ & Habsent & _ & Hempty & Hcompany & Hphone).
  split; [|split; [|split]].
  - apply Habsent. vm_compute. reflexivity.
  - apply Hempty. vm_compute. reflexivity.
  - apply Hcompany. intros v Hv. vm_compute in Hv. inversion Hv. reflexivity.
  - apply Hphone. intros v Hv. vm_compute in Hv. inversion Hv. reflexivity.
Defined.

Lemma key_not_blank : ~ blank (lit "key").
Proof. unfold blank. vm_compute. discriminate. Qed.

Lemma example_domain_not_blank : ~ blank (lit "example.com").
Proof. unfold blank. vm_compute. discriminate. Qed.

Lemma preflight_first_failure_wins_witness :
  enrich_company_data offline (lit " ") (lit "example.com") [] [] [] []
  = (inr API_KEY_REQUIRED, [])
  /\ enrich_contact_data offline (lit "key") (lit "  ") [] [] [] []
     = (inr EMAIL_REQUIRED, [])
  /\ enrich_company_data offline (lit "key") (lit "not a domain") [] [] [] []
     = (inr DOMAIN_INVALID, [])
  /\ enrich_contact_data offline (lit "key") (lit "not-an-email") [] [] [] []
     = (inr EMAIL_INVALID, [])
  /\ enrich_company_data offline (lit "key") (lit "example.com")
       (lit "ftp://linkedin.com/in/jane") [] [] []
     = (inr COMPANY_LINKEDIN_INVALID, [])
  /\ enrich_contact_data offline (lit "key") (lit "a@b.co")
       (lit "https://linkedin.com/in/jane doe") [] [] []
     = (inr CONTACT_LINKEDIN_INVALID, []).
Proof.
  split; [|split; [|split; [|split; [|split]]]].
  - destruct (preflight_first_failure_wins offline (lit " ") (lit "example.com")
                [] [] [] []) as (Hkey & _).
    apply Hkey. vm_compute. reflexivity.
  - destruct (preflight_first_failure_wins offline (lit "key") (lit "  ")
                [] [] [] []) as (_ & Hident & _).
    apply Hident.
    + apply key_not_blank.
    + vm_compute. reflexivity.
  - destruct (preflight_first_failure_wins offline (lit "key") (lit "not a domain")
                [] [] [] []) as (_ & _ & Hdomain & _).
    apply Hdomain.
    + apply key_not_blank.
    + unfold blank. vm_compute. discriminate.
    + vm_compute. reflexivity.
  - destruct (preflight_first_failure_wins offline (lit "key") (lit "not-an-email")
                [] [] [] []) as (_ & _ & _ & Hemail & _).
    apply Hemail.
    + apply key_not_blank.
    + unfold blank. vm_compute. discriminate.
    + vm_compute. reflexivity.
  - destruct (preflight_first_failure_wins offline (lit "key") (lit "example.com")
                (lit "ftp://linkedin.com/in/jane") [] [] [])
      as (_ & _ & _ & _ & Hlinkedin & _).
    apply Hlinkedin.
    + apply key_not_blank.
    + apply example_domain_not_blank.
    + vm_compute. reflexivity.
    + discriminate.
    + vm_compute. reflexivity.
  - destruct (preflight_first_failure_wins offline (lit "key") (lit "a@b.co")
                (lit "https://linkedin.com/in/jane doe") [] [] [])
      as (_ & _ & _ & _ & _ & Hlinkedin & _).
    apply Hlinkedin.
    + apply key_not_blank.
    + unfold blank. vm_compute. discriminate.
    + vm_compute. reflexivity.
    + discriminate.
    + vm_compute. reflexivity.
Defined.

(** C5, as stated, fails: a LinkedIn URL that is one space is blank,
    yet the call is answered with the LinkedIn-format error, which the
    same call without a LinkedIn URL is not. *)
Lemma blank_linkedin_url_is_rejected :
  blank (lit " ")
  /\ enrich_company_data offline (lit "key") (lit "example.com") (lit " ") [] [] []
     = (inr COMPANY_LINKEDIN_INVALID, [])
  /\ enrich_contact_data offline (lit "key") (lit "a@b.co") (lit " ") [] [] []
     = (inr CONTACT_LINKEDIN_INVALID, [])
  /\ fst (enrich_company_data offline (lit "key") (lit "example.com") [] [] [] [])
     = inr (CROSS_MARK :: lit " Request failed: Connection refused").
Proof. repeat split; vm_compute; reflexivity. Qed.

Lemma optional_fields_trimmed_in_request_witness :
  exists req out,
    enrich_company_data offline (lit "key") (lit "example.com") []
      (lit "  ") (lit " US ") []
    = (out, [] ++ [req])
    /\ req_json req !! lit "domain" = Some (strip (lit "example.com"))
    /\ req_json req !! lit "linkedin_url" = trimmed_or_absent []
    /\ req_json req !! lit "name" = trimmed_or_absent (lit "  ")
    /\ req_json req !! lit "country" = trimmed_or_absent (lit " US ").
Proof.
  destruct (optional_fields_trimmed_in_request offline (lit "key")
              (lit "example.com") [] (lit "  ") (lit " US ") []
              key_not_blank example_domain_not_blank) as (Hcompany & _).
  apply Hcompany.
  - vm_compute. reflexivity.
  - vm_compute. reflexivity.
Defined.

Lemma example_company_report_witness :
  exists req,
    enrich_company_data (answering example_response) (lit "key")
      (lit "example.com") [] [] [] []
    = (inr example_report, [] ++ [req]).
Proof.
  apply (example_company_report (answering example_response) (lit "key") [] [] [] []
           example_response [(lit "organization", example_organization)]).
  - apply key_not_blank.
  - vm_compute. reflexivity.
  - intros req. reflexivity.
  - reflexivity.
  - reflexivity.
  - vm_compute. reflexivity.
Defined.

(** C3, as stated, fails: a 200 answer whose body cannot be decoded is
    no transport failure, and the result says "Request failed", not
    "Unexpected error". *)
Lemma undecodable_body_is_request_failed :
  status_code undecodable_response = 200%Z
  /\ fst (enrich_company (answering undecodable_response)
            (ApolloAPI_init (lit "key")) (lit "example.com") None None None [])
     = inr (error_result
              (lit "Request failed: Expecting value: line 1 column 1 (char 0)"))
  /\ fst (enrich_contact (answering undecodable_response)
            (ApolloAPI_init (lit "key")) (lit "a@b.co") None None None [])
     = inr (error_result
              (lit "Request failed: Expecting value: line 1 column 1 (char 0)"))
  /\ (forall t,
        lit "Request failed: Expecting value: line 1 column 1 (char 0)"
        <> lit "Unexpected error: " ++ t).
Proof.
  split; [reflexivity|]. split; [reflexivity|]. split; [reflexivity|].
  intros t Heq. discriminate Heq.
Qed.

Lemma client_never_raises_witness :
  exists req,
    enrich_company offline (ApolloAPI_init (lit "key")) (lit "example.com")
      None None None []
    = (inr (error_result (lit "Request failed: Connection refused")), [] ++ [req]).
Proof.
  destruct (client_never_raises offline (ApolloAPI_init (lit "key"))
              (lit "example.com") None None None [])
    as ((req & res & Hrun & _ & Htransport & _) & _).
  exists req. rewrite Hrun.
  rewrite (Htransport (Exn RequestException (lit "Connection refused"))
             eq_refl eq_refl).
  reflexivity.
Defined.

Lemma client_result_invariant_witness :
  exists req res,
    enrich_contact (answering example_response) (ApolloAPI_init (lit "key"))
      (lit "a@b.co") None None None []
    = (inr res, [] ++ [req])
    /\ data res = VDict [] /\ message res <> [].
Proof.
  destruct (client_result_invariant (answering example_response)
              (ApolloAPI_init (lit "key")) (lit "a@b.co") None None None [])
    as (_ & req & res & Hrun & Hstatus & Hsuccess & Herror).
  exists req, res. split; [exact Hrun|].
  destruct Hstatus as [Hs|Hs]; [|exact (Herror Hs)].
  destruct (Hsuccess Hs) as (resp & d & Hresp & _ & Hjson & Hdata).
  inversion Hresp; subst resp. inversion Hjson; subst d.
  rewrite Hdata. split; [reflexivity|].
  vm_compute in Hrun. inversion Hrun. discriminate.
Defined.

End Cases.

(** ** More on trimming *)

Section Frames.

Lemma all_space_app w1 w2 : all_space (w1 ++ w2) <-> all_space w1 /\ all_space w2.
Proof. apply Forall_app. Qed.

Lemma all_space_rev w : all_space w -> all_space (rev w).
Proof.
  unfold all_space. rewrite !Forall_forall. intros Hw c Hc. apply Hw.
  apply list_elem_of_In. apply list_elem_of_In, in_rev in Hc. exact Hc.
Qed.

Lemma lstrip_space_prefix w s : all_space w -> lstrip (w ++ s) = lstrip s.
Proof.
  induction 1 as [|c w Hc _ IH]; [reflexivity|].
  simpl. rewrite Hc. exact IH.
Qed.

Lemma lstrip_fixed c s : is_space c = false -> lstrip (c :: s) = c :: s.
Proof. intros Hc. simpl. rewrite Hc. reflexivity. Qed.

(** What [lstrip] removes is white space, and what it leaves does not
    start with white space. *)
Lemma lstrip_decompose s :
  exists w, all_space w /\ s = w ++ lstrip s
            /\ (lstrip s = [] \/ exists c t, lstrip s = c :: t /\ is_space c = false).
Proof.
  induction s as [|c s (w & Hw & Hs & Hl)]; simpl.
  - exists []. repeat split; [constructor | auto].
  - destruct (is_space c) eqn:Hc.
    + exists (c :: w). repeat split; [constructor; assumption | | exact Hl].
      simpl. f_equal. exact Hs.
    + exists []. repeat split; [constructor | eauto].
Qed.

(** A string that starts and ends with a character that is not white
    space is what trimming leaves of it, whatever white space surrounds
    it. *)
Lemma strip_framed w1 w2 c c' q q' :
  all_space w1 -> all_space w2 ->
  is_space c = false -> is_space c' = false ->
  c :: q = q' ++ [c'] ->
  strip (w1 ++ (c :: q) ++ w2) = c :: q.
Proof.
  intros H1 H2 Hc Hc' Hq. unfold strip, rstrip.
  rewrite (lstrip_space_prefix _ _ H1).
  change ((c :: q) ++ w2) with (c :: (q ++ w2)). rewrite (lstrip_fixed _ _ Hc).
  change (c :: (q ++ w2)) with ((c :: q) ++ w2).
  rewrite rev_app_distr, (lstrip_space_prefix _ _ (all_space_rev _ H2)).
  rewrite Hq, rev_app_distr. change (rev [c']) with [c'].
  change ([c'] ++ rev q') with (c' :: rev q').
  rewrite (lstrip_fixed _ _ Hc').
  rewrite <- rev_unit, rev_involutive. reflexivity.
Qed.

(** What [strip] removes is white space on both sides, and what it
    leaves neither starts nor ends with white space. *)
Lemma strip_decompose s :
  exists w1 w2,
    all_space w1 /\ all_space w2 /\ s = w1 ++ strip s ++ w2
    /\ (strip s = []
        \/ exists c c' q q', strip s = c :: q /\ c :: q = q' ++ [c']
                             /\ is_space c = false /\ is_space c' = false).
Proof.
  destruct (lstrip_decompose s) as (w1 & Hw1 & Hs & Hl).
  destruct (lstrip_decompose (rev (lstrip s))) as (w & Hw & Hr & Hu).
  assert (Ht : lstrip s = strip s ++ rev w).
  { unfold strip, rstrip. rewrite <- rev_app_distr, <- Hr, rev_involutive.
    reflexivity. }
  exists w1, (rev w). split; [exact Hw1|]. split; [apply all_space_rev, Hw|].
  split; [rewrite <- Ht; exact Hs|].
  destruct Hu as [Hu|(c' & u & Hu & Hc')].
  - left. unfold strip, rstrip. rewrite Hu. reflexivity.
  - right. assert (Hstrip : strip s = rev u ++ [c']).
    { unfold strip, rstrip. rewrite Hu. reflexivity. }
    destruct (strip s) as [|c q] eqn:Hq.
    { destruct (rev u); discriminate Hstrip. }
    exists c, c', q, (rev u). repeat split; try assumption.
    destruct Hl as [Hl|(c0 & t & Hl & Hc0)].
    + rewrite Hl in Ht. discriminate Ht.
    + rewrite Hl in Ht. simpl in Ht. inversion Ht; subst. exact Hc0.
Qed.

(** Trimming does not see surrounding white space. *)
Lemma strip_frame_invariant w1 w2 s :
  all_space w1 -> all_space w2 -> strip (w1 ++ s ++ w2) = strip s.
Proof.
  intros H1 H2.
  destruct (strip_decompose s) as (a & b & Ha & Hb & Hs & [He|Hf]).
  - rewrite He. apply strip_nil.
    apply strip_nil in He.
    apply all_space_app. split; [exact H1|].
    apply all_space_app. split; [exact He | exact H2].
  - destruct Hf as (c & c' & q & q' & Hq & Hqq & Hc & Hc').
    rewrite Hs at 1. rewrite Hq.
    replace (w1 ++ (a ++ (c :: q) ++ b) ++ w2)
      with ((w1 ++ a) ++ (c :: q) ++ (b ++ w2))
      by (rewrite <- !app_assoc; reflexivity).
    apply (strip_framed _ _ c c' q q'); try assumption.
    + apply all_space_app. auto.
    + apply all_space_app. auto.
Qed.

Lemma strip_idempotent s : strip (strip s) = strip s.
Proof.
  destruct (strip_decompose s) as (a & b & _ & _ & _ & [He|Hf]).
  - rewrite He. reflexivity.
  - destruct Hf as (c & c' & q & q' & Hq & Hqq & Hc & Hc').
    rewrite Hq.
    rewrite <- (strip_framed [] [] c c' q q') at 2;
      try assumption; try constructor.
    rewrite app_nil_r. reflexivity.
Qed.

(** A non-empty string without white space, followed by white space,
    trims to itself. *)
Lemma strip_space_free p w :
  p <> [] -> space_free p -> all_space w -> strip (p ++ w) = p.
Proof.
  intros Hne Hp Hw.
  destruct p as [|c q]; [congruence|].
  destruct (exists_last (l:=c :: q)) as (q' & c' & Hq); [discriminate|].
  change (strip ([] ++ (c :: q) ++ w) = c :: q).
  apply (strip_framed [] w c c' q q'); try assumption; try constructor.
  - inversion Hp; assumption.
  - unfold space_free in Hp. rewrite Hq in Hp.
    apply Forall_app in Hp as [_ Hp]. inversion Hp; assumption.
Qed.

End Frames.

(** ** The three patterns, spelled out *)

Section Shapes.
Import Re ReFacts ClassFacts.

Lemma anchored_up_to_final_newline r s :
  MatchesAnchored r s <-> up_to_final_newline (Matches r) s.
Proof.
  unfold MatchesAnchored, up_to_final_newline. split.
  - intros (p & rest & -> & Hm & [-> | ->]).
    + left. rewrite app_nil_r. exact Hm.
    + right. eauto.
  - intros [Hm|(s' & -> & Hm)].
    + exists s, []. rewrite app_nil_r. auto.
    + exists s', [LF]. auto.
Qed.

Lemma up_to_final_newline_iff (P Q : str -> Prop) s :
  (forall t, P t <-> Q t) ->
  up_to_final_newline P s <-> up_to_final_newline Q s.
Proof.
  intros HPQ. unfold up_to_final_newline. rewrite HPQ. split.
  - intros [Hs|(s' & -> & Hs)]; [left | right; exists s'; rewrite <- HPQ]; auto.
  - intros [Hs|(s' & -> & Hs)]; [left | right; exists s'; rewrite HPQ]; auto.
Qed.

Lemma matches_class c cs : in_set cs c -> Matches (Class cs) [c].
Proof. apply M_Class. Qed.

Lemma matches_chr c : Matches (Chr c) [c].
Proof. constructor. unfold in_class. simpl. rewrite N.leb_refl. reflexivity. Qed.

Lemma matches_opt r s : Matches (Opt r) s <-> s = [] \/ Matches r s.
Proof.
  unfold Opt. split.
  - intros Hm. apply matches_alt_inv in Hm as [Hm|Hm]; [auto|].
    apply matches_eps_inv in Hm. auto.
  - intros [->|Hm]; [apply M_AltR; constructor | apply M_AltL; exact Hm].
Qed.

(** [[cs]{lo,hi}], both ways. *)
Lemma matches_repeat_class_between lo hi cs s :
  lo <= hi ->
  Matches (Repeat lo (Some hi) (Class cs)) s
  <-> lo <= length s <= hi /\ Forall (in_set cs) s.
Proof.
  intros Hle. split.
  - intros Hm. apply matches_repeat_class_bounded in Hm as [Hl Hf].
    split; [lia | exact Hf].
  - intros [Hl Hf]. unfold Repeat. rewrite <- (take_drop lo s).
    rewrite <- (take_drop lo s) in Hf. apply Forall_app in Hf as [Hf1 Hf2].
    apply M_Cat.
    + apply matches_exactly_class. split; [|assumption].
      rewrite length_take. lia.
    + apply matches_upto_class. split; [|assumption].
      rewrite length_drop. lia.
Qed.

(** The domain pattern. *)
Lemma domain_pattern_exact p : Matches domain_pattern p <-> domain_shape p.
Proof.
  unfold domain_pattern, domain_shape. split.
  - intros Hm.
    apply matches_cat_inv in Hm as (s0 & q0 & -> & H0 & Hm).
    apply matches_cat_inv in Hm as (mid & q1 & -> & Hmid & Hm).
    apply matches_cat_inv in Hm as (opt & q2 & -> & Hopt & Hm).
    apply matches_cat_inv in Hm as (dot & tld & -> & Hdot & Htld).
    apply matches_class_inv in H0 as (c0 & -> & Hc0).
    apply matches_repeat_class_between in Hmid as [Hlmid Hfmid]; [|lia].
    apply matches_chr_inv in Hdot as ->.
    apply matches_repeat_class_unbounded in Htld as [Hltld Hftld].
    exists ([c0] ++ mid ++ opt), tld.
    apply matches_opt in Hopt as [->|Hopt].
    + rewrite app_nil_r. simpl. repeat split; try assumption; try lia.
      * constructor; [apply alnum_is_alnum_hyphen; exact Hc0 | exact Hfmid].
      * eauto.
    + apply matches_class_inv in Hopt as (c & -> & Hc).
      repeat split; try assumption.
      * rewrite <- !app_assoc. reflexivity.
      * simpl. lia.
      * simpl. rewrite length_app. simpl. lia.
      * constructor; [apply alnum_is_alnum_hyphen; exact Hc0|].
        apply Forall_app. split; [exact Hfmid|].
        constructor; [apply alnum_is_alnum_hyphen; exact Hc | constructor].
      * simpl. eauto.
      * intros _. exists c. split; [|exact Hc].
        rewrite app_assoc. apply last_snoc.
  - intros (label & tld & -> & Hlen & Hf & (c0 & Hhead & Hc0) & Hlast & Htld & Hltld).
    destruct label as [|c rest]; [discriminate|].
    simpl in Hhead. inversion Hhead; subst c0. simpl in Hlen.
    inversion Hf as [|? ? _ Hfrest]; subst.
    assert (Htail : Matches (Cat (Chr DOT) (Repeat 2 None (Class alpha)))
                      (DOT :: tld)).
    { apply (M_Cat _ _ [DOT] tld); [apply matches_chr|].
      apply matches_repeat_class_unbounded. auto. }
    destruct (decide (length rest = 62)) as [H62|H62].
    + destruct Hlast as (c' & Hl & Hc'); [simpl; lia|].
      destruct (exists_last (l:=rest)) as (mid & x & ->).
      { intros ->. discriminate H62. }
      rewrite app_comm_cons, last_snoc in Hl. inversion Hl; subst x.
      rewrite length_app in H62. simpl in H62.
      apply Forall_app in Hfrest as [Hfmid _].
      replace ((c :: mid ++ [c']) ++ DOT :: tld)
        with ([c] ++ mid ++ [c'] ++ DOT :: tld)
        by (simpl; rewrite <- app_assoc; reflexivity).
      apply M_Cat; [apply matches_class; exact Hc0|].
      apply M_Cat; [apply matches_repeat_class_between; [lia|split; [lia|exact Hfmid]]|].
      apply M_Cat; [apply matches_opt; right; apply matches_class; exact Hc'|].
      exact Htail.
    + replace ((c :: rest) ++ DOT :: tld) with ([c] ++ rest ++ [] ++ DOT :: tld)
        by reflexivity.
      apply M_Cat; [apply matches_class; exact Hc0|].
      apply M_Cat; [apply matches_repeat_class_between; [lia|split; [lia|exact Hfrest]]|].
      apply M_Cat; [apply matches_opt; left; reflexivity|].
      exact Htail.
Qed.

(** The e-mail pattern. *)
Lemma email_pattern_exact p : Matches email_pattern p <-> email_shape p.
Proof.
  unfold email_pattern, email_shape, Plus. split.
  - intros Hm.
    apply matches_cat_inv in Hm as (local & q0 & -> & Hlocal & Hm).
    apply matches_cat_inv in Hm as (at_ & q1 & -> & Hat & Hm).
    apply matches_cat_inv in Hm as (host & q2 & -> & Hhost & Hm).
    apply matches_cat_inv in Hm as (dot & tld & -> & Hdot & Htld).
    apply matches_repeat_class_unbounded in Hlocal as [Hll Hfl].
    apply matches_repeat_class_unbounded in Hhost as [Hlh Hfh].
    apply matches_repeat_class_unbounded in Htld as [Hlt Hft].
    apply matches_chr_inv in Hat as ->. apply matches_chr_inv in Hdot as ->.
    exists local, host, tld. repeat split; try assumption.
    + intros ->. simpl in Hll. lia.
    + intros ->. simpl in Hlh. lia.
  - intros (local & host & tld & -> & Hl & Hfl & Hh & Hfh & Hft & Hlt).
    apply M_Cat.
    { apply matches_repeat_class_unbounded. split; [|exact Hfl].
      destruct local; [congruence | simpl; lia]. }
    apply (M_Cat _ _ [64%N]); [apply matches_chr|].
    apply M_Cat.
    { apply matches_repeat_class_unbounded. split; [|exact Hfh].
      destruct host; [congruence | simpl; lia]. }
    apply (M_Cat _ _ [DOT]); [apply matches_chr|].
    apply matches_repeat_class_unbounded. auto.
Qed.

(** The LinkedIn pattern. *)
Lemma linkedin_pattern_exact p : Matches linkedin_pattern p <-> linkedin_shape p.
Proof.
  unfold linkedin_pattern, linkedin_shape, Plus. split.
  - intros Hm.
    apply matches_cat_inv in Hm as (http & q0 & -> & Hhttp & Hm).
    apply matches_cat_inv in Hm as (scheme & q1 & -> & Hscheme & Hm).
    apply matches_cat_inv in Hm as (sep & q2 & -> & Hsep & Hm).
    apply matches_cat_inv in Hm as (www & q3 & -> & Hwww & Hm).
    apply matches_cat_inv in Hm as (site & q4 & -> & Hsite & Hm).
    apply matches_cat_inv in Hm as (kind & q5 & -> & Hkind & Hm).
    apply matches_cat_inv in Hm as (sl & q6 & -> & Hsl & Hm).
    apply matches_cat_inv in Hm as (slug & slash & -> & Hslug & Hslash).
    apply matches_lit_inv in Hhttp as ->. apply matches_lit_inv in Hsep as ->.
    apply matches_lit_inv in Hsite as ->. apply matches_chr_inv in Hsl as ->.
    apply matches_repeat_class_unbounded in Hslug as [Hls Hfs].
    exists scheme, www, kind, slug, slash. repeat split; try assumption.
    + apply matches_opt in Hscheme as [->|Hs]; [auto|].
      apply matches_chr_inv in Hs. auto.
    + apply matches_opt in Hwww as [->|Hw]; [auto|].
      apply matches_lit_inv in Hw. auto.
    + apply matches_alt_inv in Hkind as [Hk|Hk];
        apply matches_lit_inv in Hk; auto.
    + intros ->. simpl in Hls. lia.
    + apply matches_opt in Hslash as [->|Hs]; [auto|].
      apply matches_chr_inv in Hs. auto.
  - intros (scheme & www & kind & slug & slash
            & -> & Hscheme & Hwww & Hkind & Hslug & Hfs & Hslash).
    apply M_Cat; [apply matches_lit|].
    apply M_Cat.
    { apply matches_opt. destruct Hscheme as [->| ->]; [auto|].
      right. apply matches_chr. }
    apply M_Cat; [apply matches_lit|].
    apply M_Cat.
    { apply matches_opt. destruct Hwww as [->| ->]; [auto|].
      right. apply matches_lit. }
    apply M_Cat; [apply matches_lit|].
    apply M_Cat.
    { destruct Hkind as [->| ->];
        [apply M_AltL | apply M_AltR]; apply matches_lit. }
    apply (M_Cat _ _ [47%N]); [apply matches_chr|].
    apply M_Cat.
    { apply matches_repeat_class_unbounded. split; [|exact Hfs].
      destruct slug; [congruence | simpl; lia]. }
    apply matches_opt. destruct Hslash as [->| ->]; [auto|].
    right. apply matches_chr.
Qed.

(** X1: [validate_domain] accepts exactly the strings that, up to one
    final newline, are a label of 1-63 alphanumeric/hyphen characters
    starting with an alphanumeric one, a dot and two or more letters;
    the label may end with a hyphen unless it has all 63 characters. *)
Theorem validate_domain_exact s :
  validate_domain s = true <-> up_to_final_newline domain_shape s.
Proof.
  rewrite validate_domain_true, anchored_up_to_final_newline.
  apply up_to_final_newline_iff, domain_pattern_exact.
Qed.

(** X2: [validate_email] accepts exactly the strings that, up to one
    final newline, are a non-empty local part of [[a-zA-Z0-9._%+-]], an
    [@], a non-empty host part of [[a-zA-Z0-9.-]], a dot and two or more
    letters. *)
Theorem validate_email_exact s :
  validate_email s = true <-> up_to_final_newline email_shape s.
Proof.
  rewrite validate_email_true, anchored_up_to_final_newline.
  apply up_to_final_newline_iff, email_pattern_exact.
Qed.

(** X3: [validate_linkedin_url] accepts exactly the empty string and
    the strings that, up to one final newline, are [http://] or
    [https://], an optional [www.], [linkedin.com/], [in] or [company],
    a slash, a non-empty slug of letters, digits and hyphens, and an
    optional final slash. *)
Theorem validate_linkedin_url_exact s :
  validate_linkedin_url s = true <-> s = [] \/ up_to_final_newline linkedin_shape s.
Proof.
  destruct s as [|c s].
  - split; [auto | reflexivity].
  - rewrite validate_linkedin_url_true, anchored_up_to_final_newline.
    rewrite (up_to_final_newline_iff _ _ _ linkedin_pattern_exact).
    split; [auto|]. intros [Hs|Hs]; [discriminate | exact Hs].
Qed.

End Shapes.

(** ** What is accepted is sent in full *)

Section SentInFull.
Import Re ReFacts ClassFacts.

Lemma is_space_in_ranges c : is_space c = true <-> in_class space_ranges c = true.
Proof.
  unfold is_space, in_class, space_ranges. simpl existsb. cbn [fst snd].
  rewrite !orb_true_iff, !andb_true_iff, !N.leb_le, !N.eqb_eq. lia.
Qed.

Lemma in_class_app cs1 cs2 c :
  in_class (cs1 ++ cs2) c = in_class cs1 c || in_class cs2 c.
Proof. unfold in_class. apply existsb_app. Qed.

Lemma apart_spec cs ws c :
  apart cs ws = true -> in_class cs c = true -> in_class ws c = false.
Proof.
  unfold apart, in_class. rewrite forallb_forall. intros Ha Hc.
  apply existsb_exists in Hc as (r & Hr & Hrc).
  apply andb_true_iff in Hrc as [Hlo Hhi].
  apply N.leb_le in Hlo. apply N.leb_le in Hhi.
  specialize (Ha r Hr). rewrite forallb_forall in Ha.
  apply not_true_is_false. intros Hw.
  apply existsb_exists in Hw as (w & Hw & Hwc).
  apply andb_true_iff in Hwc as [Hlo' Hhi'].
  apply N.leb_le in Hlo'. apply N.leb_le in Hhi'.
  specialize (Ha w Hw). apply orb_true_iff in Ha as [Ha|Ha];
    apply N.ltb_lt in Ha; lia.
Qed.

(** Every character of a match is in one of the sets of the pattern. *)
Lemma matches_pattern_chars r s :
  Matches r s -> Forall (in_set (pattern_chars r)) s.
Proof.
  unfold in_set. induction 1; simpl.
  - constructor.
  - constructor; [assumption | constructor].
  - apply Forall_app. split.
    + eapply Forall_impl; [exact IHMatches1|].
      intros c Hc. rewrite in_class_app, Hc. reflexivity.
    + eapply Forall_impl; [exact IHMatches2|].
      intros c Hc. rewrite in_class_app, Hc, orb_true_r. reflexivity.
  - eapply Forall_impl; [exact IHMatches|].
    intros c Hc. rewrite in_class_app, Hc. reflexivity.
  - eapply Forall_impl; [exact IHMatches|].
    intros c Hc. rewrite in_class_app, Hc, orb_true_r. reflexivity.
  - constructor.
  - apply Forall_app. split; assumption.
Qed.

Lemma space_free_match r s :
  apart (pattern_chars r) space_ranges = true -> Matches r s -> space_free s.
Proof.
  intros Ha Hm. apply matches_pattern_chars in Hm.
  eapply Forall_impl; [exact Hm|]. intros c Hc.
  apply not_true_is_false. intros Hs. apply is_space_in_ranges in Hs.
  rewrite (apart_spec _ _ _ Ha Hc) in Hs. discriminate.
Qed.

(** An anchored match of a pattern without white space trims to a full
    match, and differs from it by one final newline at most. *)
Lemma anchored_strip r s :
  apart (pattern_chars r) space_ranges = true -> nullable r = false ->
  MatchesAnchored r s ->
  Matches r (strip s) /\ (s = strip s \/ s = strip s ++ [LF]).
Proof.
  intros Ha Hn (p & rest & -> & Hm & Hrest).
  assert (Hp : strip (p ++ rest) = p).
  { apply strip_space_free.
    - intros ->. apply nullable_spec in Hm. congruence.
    - apply (space_free_match r); assumption.
    - destruct Hrest as [-> | ->]; [constructor|].
      constructor; [reflexivity | constructor]. }
  rewrite Hp. split; [exact Hm|].
  destruct Hrest as [-> | ->]; [left; apply app_nil_r | right; reflexivity].
Qed.

(** X4: an identifier that its validator accepts is trimmed to a full
    match of the pattern, so the final newline that the validators let
    through never reaches the request; the accepted string is its
    trimmed form, followed by one newline at most. *)
Theorem accepted_identifier_trims_to_full_match :
  (forall d, validate_domain d = true ->
     Matches domain_pattern (strip d) /\ (d = strip d \/ d = strip d ++ [LF]))
  /\ (forall e, validate_email e = true ->
        Matches email_pattern (strip e) /\ (e = strip e \/ e = strip e ++ [LF]))
  /\ (forall l, l <> [] -> validate_linkedin_url l = true ->
        Matches linkedin_pattern (strip l) /\ (l = strip l \/ l = strip l ++ [LF])).
Proof.
  split; [|split].
  - intros d Hv. apply validate_domain_true in Hv.
    apply anchored_strip; [vm_compute; reflexivity | reflexivity | exact Hv].
  - intros e Hv. apply validate_email_true in Hv.
    apply anchored_strip; [vm_compute; reflexivity | reflexivity | exact Hv].
  - intros [|c l] Hne Hv; [congruence|]. apply validate_linkedin_url_true in Hv.
    apply anchored_strip; [vm_compute; reflexivity | reflexivity | exact Hv].
Qed.

Lemma accepted_identifier_trims_to_full_match_witness :
  Matches domain_pattern (strip (lit "example.com" ++ [LF]))
  /\ Matches email_pattern (strip (lit "a@b.co"))
  /\ Matches linkedin_pattern (strip (lit "https://linkedin.com/in/janedoe" ++ [LF])).
Proof.
  destruct accepted_identifier_trims_to_full_match as (Hd & He & Hl).
  split; [|split].
  - apply (Hd (lit "example.com" ++ [LF])). vm_compute. reflexivity.
  - apply (He (lit "a@b.co")). vm_compute. reflexivity.
  - apply (Hl (lit "https://linkedin.com/in/janedoe" ++ [LF])).
    + discriminate.
    + vm_compute. reflexivity.
Defined.

End SentInFull.

(** ** The entry points, from the checks to the text *)

Section EndToEnd.
Context `{PyRuntime} (requests_post : request -> Result response).

(** Once the checks pass, [enrich_company_data] is one request and a
    text or an exception that depends on the answer alone. *)
Lemma company_after_checks api_key domain linkedin_url x y log :
  checks_pass validate_domain api_key domain linkedin_url ->
  enrich_company_data requests_post api_key domain linkedin_url x y log
  = (match requests_post (company_request api_key domain linkedin_url x y) with
     | inl e => failure (exception_prefix e ++ exn_str e)
     | inr resp =>
         if (status_code resp =? 200)%Z then
           match resp_json resp with
           | inl e => failure (exception_prefix e ++ exn_str e)
           | inr (VDict doc) =>
               format_company
                 (success_result
                    (from_option id (VDict []) (dict_lookup doc (lit "organization")))
                    (lit "Company data enriched successfully"))
           | inr v =>
               failure (lit "Unexpected error: " ++ exn_str (AttributeError v "get"))
           end
         else
           failure (lit "API Error: " ++ str_of_int (status_code resp)
                    ++ lit " - " ++ text resp)
     end,
     log ++ [company_request api_key domain linkedin_url x y]).
Proof.
  intros (Hkey & Hident & Hvalid & Hl).
  unfold enrich_company_data.
  rewrite (not_blank _ Hkey), (not_blank _ Hident), Hvalid, Hl, andb_false_r.
  cbn [negb].
  unfold enrich_company, try_except, post, on_exception, lift, py_get,
    mbind, M_bind, mret, M_ret; cbv zeta beta.
  change (Request _ _ _) with (company_request api_key domain linkedin_url x y).
  destruct (requests_post _) as [[[|] msg]|resp]; [reflexivity | reflexivity |].
  destruct (status_code resp =? 200)%Z; [|reflexivity].
  destruct (resp_json resp) as [[[|] msg]|[]]; reflexivity.
Qed.

Lemma contact_after_checks api_key email linkedin_url x y log :
  checks_pass validate_email api_key email linkedin_url ->
  enrich_contact_data requests_post api_key email linkedin_url x y log
  = (match requests_post (contact_request api_key email linkedin_url x y) with
     | inl e => failure (exception_prefix e ++ exn_str e)
     | inr resp =>
         if (status_code resp =? 200)%Z then
           match resp_json resp with
           | inl e => failure (exception_prefix e ++ exn_str e)
           | inr (VDict doc) =>
               format_contact
                 (success_result
                    (from_option id (VDict []) (dict_lookup doc (lit "person")))
                    (lit "Contact data enriched successfully"))
           | inr v =>
               failure (lit "Unexpected error: " ++ exn_str (AttributeError v "get"))
           end
         else
           failure (lit "API Error: " ++ str_of_int (status_code resp)
                    ++ lit " - " ++ text resp)
     end,
     log ++ [contact_request api_key email linkedin_url x y]).
Proof.
  intros (Hkey & Hident & Hvalid & Hl).
  unfold enrich_contact_data.
  rewrite (not_blank _ Hkey), (not_blank _ Hident), Hvalid, Hl, andb_false_r.
  cbn [negb].
  unfold enrich_contact, try_except, post, on_exception, lift, py_get,
    mbind, M_bind, mret, M_ret; cbv zeta beta.
  change (Request _ _ _) with (contact_request api_key email linkedin_url x y).
  destruct (requests_post _) as [[[|] msg]|resp]; [reflexivity | reflexivity |].
  destruct (status_code resp =? 200)%Z; [|reflexivity].
  destruct (resp_json resp) as [[[|] msg]|[]]; reflexivity.
Qed.

Lemma lookup_set_if_given (k : string) (o : option str) (m : gmap str str) (key : str) :
  set_if_given k o m !! key
  = if decide (lit k = key) then
      (if given o then Some (default [] o) else m !! key)
    else m !! key.
Proof.
  unfold set_if_given. destruct (given o).
  - rewrite lookup_insert. destruct (decide (lit k = key)); reflexivity.
  - destruct (decide (lit k = key)); reflexivity.
Qed.

Lemma given_not_empty (o : option str) : given o = true -> default [] o <> [].
Proof. destruct o as [[|c s]|]; simpl; congruence. Qed.

Lemma set_if_given_entry (k : string) (o : option str) (m : gmap str str)
    (key v : str) :
  set_if_given k o m !! key = Some v ->
  (key = lit k /\ v <> []) \/ m !! key = Some v.
Proof.
  rewrite lookup_set_if_given.
  destruct (decide (lit k = key)) as [<-|Hne]; [|auto].
  destruct (given o) eqn:Hg; [|auto].
  intros Hv. inversion Hv; subst v. left. split; [reflexivity|].
  apply given_not_empty. exact Hg.
Qed.

(** The body of a request: the identifier, and optional fields that
    are never empty. *)
Lemma body_entries (id_key k1 k2 k3 : string) (ident : str) (o1 o2 o3 : option str)
    (key v : str) :
  ident <> [] ->
  set_if_given k3 o3 (set_if_given k2 o2 (set_if_given k1 o1 {[lit id_key := ident]}))
    !! key = Some v ->
  key ∈ [lit id_key; lit k1; lit k2; lit k3] /\ v <> [].
Proof.
  intros Hident Hv.
  apply set_if_given_entry in Hv as [[-> Hv]|Hv]; [split; [set_solver|exact Hv]|].
  apply set_if_given_entry in Hv as [[-> Hv]|Hv]; [split; [set_solver|exact Hv]|].
  apply set_if_given_entry in Hv as [[-> Hv]|Hv]; [split; [set_solver|exact Hv]|].
  apply lookup_singleton_Some in Hv as [<- <-]. split; [set_solver|exact Hident].
Qed.

Lemma api_headers api_key :
  headers (ApolloAPI_init api_key) !! lit "X-Api-Key" = Some api_key
  /\ headers (ApolloAPI_init api_key) !! lit "Content-Type"
     = Some (lit "application/json")
  /\ headers (ApolloAPI_init api_key) !! lit "Cache-Control" = Some (lit "no-cache").
Proof.
  unfold ApolloAPI_init. cbn [headers]. split; [|split].
  - apply lookup_insert_eq.
  - rewrite !lookup_insert_ne by discriminate. apply lookup_singleton_eq.
  - rewrite lookup_insert_ne by discriminate. apply lookup_insert_eq.
Qed.

(** X5: once the four checks pass, an entry point sends one request:
    to the fixed URL of its kind, with the three headers, of which
    X-Api-Key carries the API key exactly as it was entered (it is not
    trimmed), and with a body whose keys are among the four of its kind
    and whose values are never empty. *)
Theorem request_envelope api_key ident linkedin_url x y log :
  (checks_pass validate_domain api_key ident linkedin_url ->
   exists out req,
     enrich_company_data requests_post api_key ident linkedin_url x y log
     = (out, log ++ [req])
     /\ req_url req = lit "https://api.apollo.io/api/v1/organizations/enrich"
     /\ req_headers req !! lit "X-Api-Key" = Some api_key
     /\ req_headers req !! lit "Content-Type" = Some (lit "application/json")
     /\ req_headers req !! lit "Cache-Control" = Some (lit "no-cache")
     /\ (forall key v, req_json req !! key = Some v ->
           key ∈ [lit "domain"; lit "linkedin_url"; lit "name"; lit "country"]
           /\ v <> []))
  /\ (checks_pass validate_email api_key ident linkedin_url ->
      exists out req,
        enrich_contact_data requests_post api_key ident linkedin_url x y log
        = (out, log ++ [req])
        /\ req_url req = lit "https://api.apollo.io/api/v1/people/match"
        /\ req_headers req !! lit "X-Api-Key" = Some api_key
        /\ req_headers req !! lit "Content-Type" = Some (lit "application/json")
        /\ req_headers req !! lit "Cache-Control" = Some (lit "no-cache")
        /\ (forall key v, req_json req !! key = Some v ->
              key ∈ [lit "email"; lit "linkedin_url"; lit "first_name"; lit "last_name"]
              /\ v <> [])).
Proof.
  split; intros Hchecks.
  - rewrite (company_after_checks _ _ _ _ _ _ Hchecks).
    destruct Hchecks as (_ & Hident & _).
    eexists _, _. split; [reflexivity|]. split; [reflexivity|].
    destruct (api_headers api_key) as (Hk & Ht & Hc).
    split; [exact Hk|]. split; [exact Ht|]. split; [exact Hc|].
    intros key v Hv.
    apply (body_entries "domain" "linkedin_url" "name" "country" _ _ _ _ _ _ Hident Hv).
  - rewrite (contact_after_checks _ _ _ _ _ _ Hchecks).
    destruct Hchecks as (_ & Hident & _).
    eexists _, _. split; [reflexivity|]. split; [reflexivity|].
    destruct (api_headers api_key) as (Hk & Ht & Hc).
    split; [exact Hk|]. split; [exact Ht|]. split; [exact Hc|].
    intros key v Hv.
    apply (body_entries "email" "linkedin_url" "first_name" "last_name" _ _ _ _ _ _ Hident Hv).
Qed.

(** Whether the four checks pass can be told from the four tests the
    code makes. *)
Lemma checks_pass_iff validate api_key ident linkedin_url :
  checks_pass validate api_key ident linkedin_url
  <-> is_empty (strip api_key) = false /\ is_empty (strip ident) = false
      /\ negb (validate ident) = false
      /\ negb (is_empty linkedin_url) && negb (validate_linkedin_url linkedin_url)
         = false.
Proof.
  unfold checks_pass, blank. rewrite !is_empty_false, negb_false_iff.
  assert (Hl : negb (is_empty linkedin_url) && negb (validate_linkedin_url linkedin_url)
               = false <-> validate_linkedin_url linkedin_url = true).
  { unfold validate_linkedin_url. destruct linkedin_url as [|c l]; simpl.
    - tauto.
    - rewrite negb_false_iff. tauto. }
  rewrite Hl. tauto.
Qed.

(** X6: every call of an entry point sends at most one request, and it
    sends one exactly when the four checks pass; nothing is retried. *)
Theorem one_request_exactly_when_checks_pass api_key ident linkedin_url x y log :
  (exists out,
     (checks_pass validate_domain api_key ident linkedin_url
      /\ enrich_company_data requests_post api_key ident linkedin_url x y log
         = (out, log ++ [company_request api_key ident linkedin_url x y]))
     \/ (~ checks_pass validate_domain api_key ident linkedin_url
         /\ enrich_company_data requests_post api_key ident linkedin_url x y log
            = (out, log)))
  /\ (exists out,
        (checks_pass validate_email api_key ident linkedin_url
         /\ enrich_contact_data requests_post api_key ident linkedin_url x y log
            = (out, log ++ [contact_request api_key ident linkedin_url x y]))
        \/ (~ checks_pass validate_email api_key ident linkedin_url
            /\ enrich_contact_data requests_post api_key ident linkedin_url x y log
               = (out, log))).
Proof.
  split.
  - destruct (is_empty (strip api_key)) eqn:H1;
      [|destruct (is_empty (strip ident)) eqn:H2;
        [|destruct (negb (validate_domain ident)) eqn:H3;
          [|destruct (negb (is_empty linkedin_url)
                      && negb (validate_linkedin_url linkedin_url)) eqn:H4]]].
    5: { assert (Hc : checks_pass validate_domain api_key ident linkedin_url)
           by (apply checks_pass_iff; auto).
         eexists. left. split; [exact Hc|]. apply company_after_checks, Hc. }
    all: eexists; right; split;
      [rewrite checks_pass_iff; intros (? & ? & ? & ?); congruence
      |unfold enrich_company_data; rewrite ?H1, ?H2, ?H3, ?H4; reflexivity].
  - destruct (is_empty (strip api_key)) eqn:H1;
      [|destruct (is_empty (strip ident)) eqn:H2;
        [|destruct (negb (validate_email ident)) eqn:H3;
          [|destruct (negb (is_empty linkedin_url)
                      && negb (validate_linkedin_url linkedin_url)) eqn:H4]]].
    5: { assert (Hc : checks_pass validate_email api_key ident linkedin_url)
           by (apply checks_pass_iff; auto).
         eexists. left. split; [exact Hc|]. apply contact_after_checks, Hc. }
    all: eexists; right; split;
      [rewrite checks_pass_iff; intros (? & ? & ? & ?); congruence
      |unfold enrich_contact_data; rewrite ?H1, ?H2, ?H3, ?H4; reflexivity].
Qed.

(** X7: once the checks pass, every failure of the call comes back as
    text that starts with the failure marker: "Request failed:" with the
    text of a transport exception, "Unexpected error:" with the text of
    any other exception, "API Error:" with the status code and the raw
    body for a status other than 200; a body that cannot be decoded, or
    that is not a JSON object, is reported in the same way. *)
Theorem failures_are_returned_as_text api_key ident linkedin_url x y log :
  (checks_pass validate_domain api_key ident linkedin_url ->
   (forall e,
      requests_post (company_request api_key ident linkedin_url x y) = inl e ->
      enrich_company_data requests_post api_key ident linkedin_url x y log
      = (failure (exception_prefix e ++ exn_str e),
         log ++ [company_request api_key ident linkedin_url x y]))
   /\ (forall resp,
         requests_post (company_request api_key ident linkedin_url x y) = inr resp ->
         (status_code resp <> 200%Z ->
          enrich_company_data requests_post api_key ident linkedin_url x y log
          = (failure (lit "API Error: " ++ str_of_int (status_code resp)
                      ++ lit " - " ++ text resp),
             log ++ [company_request api_key ident linkedin_url x y]))
         /\ (forall e, status_code resp = 200%Z -> resp_json resp = inl e ->
               enrich_company_data requests_post api_key ident linkedin_url x y log
               = (failure (exception_prefix e ++ exn_str e),
                  log ++ [company_request api_key ident linkedin_url x y]))
         /\ (forall v, status_code resp = 200%Z -> resp_json resp = inr v ->
               (forall doc, v <> VDict doc) ->
               enrich_company_data requests_post api_key ident linkedin_url x y log
               = (failure (lit "Unexpected error: "
                           ++ exn_str (AttributeError v "get")),
                  log ++ [company_request api_key ident linkedin_url x y]))))
  /\ (checks_pass validate_email api_key ident linkedin_url ->
      (forall e,
         requests_post (contact_request api_key ident linkedin_url x y) = inl e ->
         enrich_contact_data requests_post api_key ident linkedin_url x y log
         = (failure (exception_prefix e ++ exn_str e),
            log ++ [contact_request api_key ident linkedin_url x y]))
      /\ (forall resp,
            requests_post (contact_request api_key ident linkedin_url x y) = inr resp ->
            (status_code resp <> 200%Z ->
             enrich_contact_data requests_post api_key ident linkedin_url x y log
             = (failure (lit "API Error: " ++ str_of_int (status_code resp)
                         ++ lit " - " ++ text resp),
                log ++ [contact_request api_key ident linkedin_url x y]))
            /\ (forall e, status_code resp = 200%Z -> resp_json resp = inl e ->
                  enrich_contact_data requests_post api_key ident linkedin_url x y log
                  = (failure (exception_prefix e ++ exn_str e),
                     log ++ [contact_request api_key ident linkedin_url x y]))
            /\ (forall v, status_code resp = 200%Z -> resp_json resp = inr v ->
                  (forall doc, v <> VDict doc) ->
                  enrich_contact_data requests_post api_key ident linkedin_url x y log
                  = (failure (lit "Unexpected error: "
                              ++ exn_str (AttributeError v "get")),
                     log ++ [contact_request api_key ident linkedin_url x y])))).
Proof.
  split; intros Hchecks;
    [rewrite (company_after_checks _ _ _ _ _ _ Hchecks)
    |rewrite (contact_after_checks _ _ _ _ _ _ Hchecks)].
  all: split; [intros e ->; reflexivity|].
  all: intros resp ->; split; [|split].
  all: try (intros Hcode; apply Z.eqb_neq in Hcode; rewrite Hcode; reflexivity).
  all: try (intros e -> ->; reflexivity).
  all: intros v -> -> Hv; destruct v; try reflexivity;
    exfalso; eapply Hv; reflexivity.
Qed.

(** The report of a company payload that is a mapping. *)
Lemma format_company_report d msg :
  format_company (success_result (VDict d) msg)
  = inr (report BAR_CHART " **Enriched Company Data:**" msg (company_cells (shown d))).
Proof.
  unfold format_company, success_result.
  cbn [status data message]. rewrite success_is_success.
  rewrite !py_get_dict. cbn [mbind Result_bind mret Result_ret].
  rewrite !shown_get.
  unfold report, unlines, company_cells, bullet.
  cbn [List.map concat app fst snd lit].
  repeat (rewrite <- app_assoc; cbn [app]). reflexivity.
Qed.

(** The report of a contact payload that is a mapping. *)
Lemma format_contact_report d msg :
  format_contact (success_result (VDict d) msg)
  = (company ← company_cell (VDict d);
     phone ← phone_cell (VDict d);
     mret (report BUST " **Enriched Contact Data:**" msg
             (contact_cells (shown d) (py_str company) (py_str phone)))).
Proof.
  unfold format_contact, success_result.
  cbn [status data message]. rewrite success_is_success.
  rewrite !py_get_dict. cbn [mbind Result_bind mret Result_ret].
  destruct (company_cell (VDict d)) as [e|company]; [reflexivity|].
  destruct (phone_cell (VDict d)) as [e|phone]; [reflexivity|].
  cbn [mbind Result_bind mret Result_ret]. rewrite !shown_get.
  unfold report, unlines, contact_cells, bullet.
  cbn [List.map concat app fst snd lit].
  repeat (rewrite <- app_assoc; cbn [app]). reflexivity.
Qed.

(** A success result whose payload is no mapping makes either formatter
    raise at its first field. *)
Lemma format_not_mapping v msg :
  (forall d, v <> VDict d) ->
  format_company (success_result v msg) = inl (AttributeError v "get")
  /\ format_contact (success_result v msg) = inl (AttributeError v "get").
Proof.
  intros Hv. unfold format_company, format_contact, success_result.
  cbn [status data message]. rewrite success_is_success.
  destruct v; try (split; reflexivity). exfalso. eapply Hv. reflexivity.
Qed.

(** X8: once the checks pass and the answer is HTTP 200 with a JSON
    object, a missing 'organization' ('person') does not give an error
    but a success report in which every field is N/A; an 'organization'
    that is a mapping gives the report of its fields. *)
Theorem missing_payload_gives_empty_report api_key ident linkedin_url x y log resp doc :
  status_code resp = 200%Z ->
  resp_json resp = inr (VDict doc) ->
  (checks_pass validate_domain api_key ident linkedin_url ->
   requests_post (company_request api_key ident linkedin_url x y) = inr resp ->
   (dict_lookup doc (lit "organization") = None ->
    enrich_company_data requests_post api_key ident linkedin_url x y log
    = (inr (report BAR_CHART " **Enriched Company Data:**"
              (lit "Company data enriched successfully")
              (company_cells nothing_shown)),
       log ++ [company_request api_key ident linkedin_url x y]))
   /\ (forall payload,
         dict_lookup doc (lit "organization") = Some (VDict payload) ->
         enrich_company_data requests_post api_key ident linkedin_url x y log
         = (inr (report BAR_CHART " **Enriched Company Data:**"
                   (lit "Company data enriched successfully")
                   (company_cells (shown payload))),
            log ++ [company_request api_key ident linkedin_url x y])))
  /\ (checks_pass validate_email api_key ident linkedin_url ->
      requests_post (contact_request api_key ident linkedin_url x y) = inr resp ->
      dict_lookup doc (lit "person") = None ->
      enrich_contact_data requests_post api_key ident linkedin_url x y log
      = (inr (report BUST " **Enriched Contact Data:**"
                (lit "Contact data enriched successfully")
                (contact_cells nothing_shown (lit "N/A") (lit "N/A"))),
         log ++ [contact_request api_key ident linkedin_url x y])).
Proof.
  intros Hcode Hjson. split.
  - intros Hchecks Hpost.
    rewrite (company_after_checks _ _ _ _ _ _ Hchecks), Hpost, Hcode, Hjson.
    cbn [Z.eqb Pos.eqb]. split.
    + intros Horg. rewrite Horg. cbn [from_option].
      rewrite format_company_report. reflexivity.
    + intros payload Horg. rewrite Horg. cbn [from_option id].
      rewrite format_company_report. reflexivity.
  - intros Hchecks Hpost Hperson.
    rewrite (contact_after_checks _ _ _ _ _ _ Hchecks), Hpost, Hcode, Hjson, Hperson.
    cbn [Z.eqb Pos.eqb from_option]. rewrite format_contact_report. reflexivity.
Qed.

(** When a check fails, the company entry point returns a text. *)
Lemma one_request_or_none api_key ident linkedin_url x y log :
  checks_pass validate_domain api_key ident linkedin_url
  \/ exists out,
       enrich_company_data requests_post api_key ident linkedin_url x y log
       = (inr out, log).
Proof.
  destruct (is_empty (strip api_key)) eqn:H1;
    [|destruct (is_empty (strip ident)) eqn:H2;
      [|destruct (negb (validate_domain ident)) eqn:H3;
        [|destruct (negb (is_empty linkedin_url)
                    && negb (validate_linkedin_url linkedin_url)) eqn:H4]]].
  5: { left. apply checks_pass_iff. auto. }
  all: right; eexists; unfold enrich_company_data;
    rewrite ?H1, ?H2, ?H3, ?H4; reflexivity.
Qed.

(** X9: [enrich_company_data] lets an exception escape in one case
    only: the checks pass, the answer is HTTP 200 with a JSON object, and
    its 'organization' is present and is not a mapping (null, say); the
    exception is the AttributeError of the first [.get] of the
    formatter. *)
Theorem company_raises_exactly_on_bad_organization
    api_key ident linkedin_url x y log e :
  fst (enrich_company_data requests_post api_key ident linkedin_url x y log) = inl e
  <-> checks_pass validate_domain api_key ident linkedin_url
      /\ exists resp doc v,
           requests_post (company_request api_key ident linkedin_url x y) = inr resp
           /\ status_code resp = 200%Z
           /\ resp_json resp = inr (VDict doc)
           /\ dict_lookup doc (lit "organization") = Some v
           /\ (forall d, v <> VDict d)
           /\ e = AttributeError v "get".
Proof.
  split.
  - destruct (one_request_or_none api_key ident linkedin_url x y log)
      as [Hchecks|(out & Hrun)].
    2: { rewrite Hrun. discriminate. }
    rewrite (company_after_checks _ _ _ _ _ _ Hchecks). cbn [fst].
    intros Hraise. split; [exact Hchecks|].
    destruct (requests_post _) as [e0|resp] eqn:Hpost; [discriminate Hraise|].
    destruct (status_code resp =? 200)%Z eqn:Hcode; [|discriminate Hraise].
    apply Z.eqb_eq in Hcode.
    destruct (resp_json resp) as [e0|v] eqn:Hjson; [discriminate Hraise|].
    destruct v as [| | | | | |doc]; try discriminate Hraise.
    destruct (dict_lookup doc (lit "organization")) as [v|] eqn:Hv;
      cbn [from_option id] in Hraise.
    2: { rewrite format_company_report in Hraise. discriminate Hraise. }
    exists resp, doc, v.
    assert (Hnd : forall d, v <> VDict d).
    { intros d ->. rewrite format_company_report in Hraise. discriminate Hraise. }
    destruct (format_not_mapping v (lit "Company data enriched successfully") Hnd)
      as [Hf _].
    rewrite Hf in Hraise. inversion Hraise. auto 10.
  - intros (Hchecks & resp & doc & v & Hpost & Hcode & Hjson & Hv & Hnd & ->).
    rewrite (company_after_checks _ _ _ _ _ _ Hchecks), Hpost, Hcode, Hjson, Hv.
    cbn [Z.eqb Pos.eqb fst from_option id].
    apply (format_not_mapping v _ Hnd).
Qed.

End EndToEnd.

(** ** The nested fields of a contact *)

Section ContactFields.
Context `{PyRuntime}.

(** X10: of a contact, the Company field is the 'name' of the
    'organization' mapping and the Phone field is the 'raw_number' of
    the first entry of 'phone_numbers' alone, whatever follows it; each
    is N/A when that key is missing from the mapping that is read. *)
Theorem contact_reads_company_name_and_first_phone d :
  (forall o, dict_lookup d (lit "organization") = Some (VDict o) ->
     company_cell (VDict d) = inr (from_option id NA (dict_lookup o (lit "name"))))
  /\ (forall p rest,
        dict_lookup d (lit "phone_numbers") = Some (VList (VDict p :: rest)) ->
        phone_cell (VDict d)
        = inr (from_option id NA (dict_lookup p (lit "raw_number")))).
Proof.
  split.
  - intros o Ho. unfold company_cell. rewrite !py_get_dict, Ho.
    cbn [mbind Result_bind mret Result_ret from_option id].
    destruct o as [|kv o]; reflexivity.
  - intros p rest Hp. unfold phone_cell. rewrite !py_get_dict, Hp. reflexivity.
Qed.

Lemma company_cell_returns d :
  (exists v, company_cell (VDict d) = inr v) <-> organization_readable d.
Proof.
  unfold organization_readable, company_cell. rewrite !py_get_dict.
  cbn [mbind Result_bind mret Result_ret].
  destruct (dict_lookup d (lit "organization")) as [v|]; cbn [from_option id].
  - destruct (truthy v) eqn:Ht.
    + destruct v as [| | | | | |o]; cbn [py_get]; split;
        try (intros (w & Hw); discriminate Hw);
        try (intros [Hf|(o' & Ho)]; [discriminate Hf | discriminate Ho]);
        eauto.
    + split; [auto | eauto].
  - split; [auto | eauto].
Qed.

Lemma phone_cell_returns d :
  (exists v, phone_cell (VDict d) = inr v) <-> phone_numbers_readable d.
Proof.
  unfold phone_numbers_readable, phone_cell. rewrite !py_get_dict.
  cbn [mbind Result_bind mret Result_ret].
  destruct (dict_lookup d (lit "phone_numbers")) as [v|]; cbn [from_option id].
  - destruct (truthy v) eqn:Ht.
    + destruct v as [| | | | [|c s] | [|[| | | | | |p] rest] | [|kv items]];
        cbn [py_first py_get mbind Result_bind]; split;
        try (intros (w & Hw); discriminate Hw);
        try (intros [Hf|(p' & rest' & Hp)]; [congruence | discriminate Hp]);
        eauto.
    + split; [auto | eauto].
  - split; [auto | eauto].
Qed.

(** X11: for a contact payload that is a mapping, the formatter returns
    a report exactly when 'organization' is absent, falsy or a mapping
    and 'phone_numbers' is absent, falsy or a list whose first entry is
    a mapping; in every other case it raises. *)
Theorem contact_report_exactly_when_readable d msg :
  (exists out, format_contact (success_result (VDict d) msg) = inr out)
  <-> organization_readable d /\ phone_numbers_readable d.
Proof.
  rewrite <- company_cell_returns, <- phone_cell_returns, format_contact_report.
  destruct (company_cell (VDict d)) as [e|company];
    destruct (phone_cell (VDict d)) as [e'|phone];
    cbn [mbind Result_bind mret Result_ret]; split;
    try (intros (w & Hw); discriminate Hw);
    try (intros [(w & Hw) (w' & Hw')]; discriminate);
    eauto.
Qed.

End ContactFields.

(** ** The key check and [validate_api_key] *)

Section ApiKey.
Context `{PyRuntime} (requests_post : request -> Result response).

Lemma validate_api_key_length k :
  validate_api_key k = negb (length (strip k) <? 10).
Proof.
  unfold validate_api_key. destruct k as [|c k]; [reflexivity|].
  simpl is_empty. cbn [orb]. destruct (length (strip (c :: k)) <? 10); reflexivity.
Qed.

(** X12: [validate_api_key] accepts a key exactly when at least 10
    characters are left after trimming (its test for the empty key adds
    nothing); white space around a key does not change the answer, and an
    accepted key is never blank. *)
Theorem validate_api_key_counts_trimmed_length :
  (forall k, validate_api_key k = true <-> 10 <= length (strip k))
  /\ (forall w1 w2 k, all_space w1 -> all_space w2 ->
        validate_api_key (w1 ++ k ++ w2) = validate_api_key k)
  /\ (forall k, validate_api_key k = true -> ~ blank k).
Proof.
  assert (Hlen : forall k, validate_api_key k = true <-> 10 <= length (strip k)).
  { intros k. rewrite validate_api_key_length, negb_true_iff, Nat.ltb_ge.
    reflexivity. }
  split; [exact Hlen|]. split.
  - intros w1 w2 k H1 H2.
    rewrite !validate_api_key_length, (strip_frame_invariant _ _ _ H1 H2).
    reflexivity.
  - intros k Hk Hb. apply Hlen in Hk. unfold blank in Hb. rewrite Hb in Hk.
    simpl in Hk. lia.
Qed.

(** X13: the entry points do not apply [validate_api_key]: a key of 1
    to 9 characters after trimming, which [validate_api_key] rejects,
    passes their key check, and the call goes on to the next check. *)
Theorem short_key_passes_the_key_check k x y z log :
  1 <= length (strip k) < 10 ->
  validate_api_key k = false
  /\ enrich_company_data requests_post k [] x y z log = (inr DOMAIN_REQUIRED, log)
  /\ enrich_contact_data requests_post k [] x y z log = (inr EMAIL_REQUIRED, log).
Proof.
  intros [Hlo Hhi].
  assert (Hk : is_empty (strip k) = false).
  { destruct (strip k); [simpl in Hlo; lia | reflexivity]. }
  split; [|split].
  - rewrite validate_api_key_length, negb_false_iff. apply Nat.ltb_lt. exact Hhi.
  - unfold enrich_company_data. rewrite Hk. reflexivity.
  - unfold enrich_contact_data. rewrite Hk. reflexivity.
Qed.

(** X14: the identifier is validated as entered, before it is trimmed:
    a domain or an e-mail with white space around it, other than one
    final newline, is answered with the format error and nothing is sent,
    whatever its trimmed form is. *)
Theorem surrounding_space_fails_validation api_key ident linkedin_url x y log :
  ~ blank api_key -> ~ blank ident ->
  ident <> strip ident -> ident <> strip ident ++ [LF] ->
  enrich_company_data requests_post api_key ident linkedin_url x y log
  = (inr DOMAIN_INVALID, log)
  /\ enrich_contact_data requests_post api_key ident linkedin_url x y log
     = (inr EMAIL_INVALID, log).
Proof.
  intros Hkey Hident Hs Hnl.
  assert (Hd : validate_domain ident = false).
  { apply not_true_is_false. intros Hv. apply validate_domain_true in Hv.
    apply anchored_strip in Hv as [_ [Heq|Heq]];
      [congruence | congruence | vm_compute; reflexivity | reflexivity]. }
  assert (He : validate_email ident = false).
  { apply not_true_is_false. intros Hv. apply validate_email_true in Hv.
    apply anchored_strip in Hv as [_ [Heq|Heq]];
      [congruence | congruence | vm_compute; reflexivity | reflexivity]. }
  unfold enrich_company_data, enrich_contact_data.
  rewrite (not_blank _ Hkey), (not_blank _ Hident), Hd, He. split; reflexivity.
Qed.

End ApiKey.

(** ** The launcher *)

Section LauncherFacts.
Import Launcher.

(** X15: the launcher exits with status 0 exactly when the application
    file exists and the child either ends with status 0 or is interrupted
    from the keyboard, and with status 1 otherwise; it starts the
    application once when the file exists and never when it is missing;
    the two banner lines are printed first in every case. *)
Theorem launcher_exit_status w :
  (exit_status w = 0%Z
   <-> app_file_exists w = true
       /\ (subprocess_run w = Completed \/ subprocess_run w = KeyboardInterrupt))
  /\ (exit_status w = 0%Z \/ exit_status w = 1%Z)
  /\ started (snd (main w)) = (if app_file_exists w then [lit APP] else [])
  /\ (exists rest,
        snd (main w)
        = Print (ROCKET :: lit " Starting Apollo Data Enrichment Tool...")
            :: Print (replicate 50 61%N) :: rest).
Proof.
  unfold exit_status, main.
  destruct w as [[|] [|e| |e]]; cbn [app_file_exists subprocess_run negb fst snd];
    (split; [split; [intros Hx; first [discriminate Hx | auto]
                    |intros [He [Hr|Hr]]; first [reflexivity | discriminate]]|]);
    (split; [first [left; reflexivity | right; reflexivity]|]);
    (split; [reflexivity | eexists; reflexivity]).
Qed.

End LauncherFacts.

(** ** More worked cases *)

Section MoreCases.
#[local] Existing Instance plain_runtime.

Lemma padded_key_checks_pass :
  checks_pass validate_domain (lit " key ") (lit "example.com") [].
Proof.
  unfold checks_pass, blank. repeat split; vm_compute; congruence.
Qed.

Lemma contact_checks_pass : checks_pass validate_email (lit "key") (lit "a@b.co") [].
Proof.
  unfold checks_pass, blank. repeat split; vm_compute; congruence.
Qed.

Lemma request_envelope_witness :
  exists out req,
    enrich_company_data offline (lit " key ") (lit "example.com") [] [] [] []
    = (out, [] ++ [req])
    /\ req_url req = lit "https://api.apollo.io/api/v1/organizations/enrich"
    /\ req_headers req !! lit "X-Api-Key" = Some (lit " key ").
Proof.
  destruct (request_envelope offline (lit " key ") (lit "example.com") [] [] [] [])
    as (Hcompany & _).
  destruct (Hcompany padded_key_checks_pass)
    as (out & req & Hrun & Hurl & Hkey & _).
  exists out, req. auto.
Defined.

Lemma failures_are_returned_as_text_witness :
  enrich_contact_data offline (lit "key") (lit "a@b.co") [] [] [] []
  = (inr (CROSS_MARK :: lit " Request failed: Connection refused"),
     [] ++ [contact_request (lit "key") (lit "a@b.co") [] [] []]).
Proof.
  destruct (failures_are_returned_as_text offline (lit "key") (lit "a@b.co")
              [] [] [] []) as (_ & Hcontact).
  destruct (Hcontact contact_checks_pass) as (Hraise & _).
  apply (Hraise (Exn RequestException (lit "Connection refused"))).
  reflexivity.
Defined.

Lemma missing_payload_gives_empty_report_witness :
  enrich_contact_data (answering (Response 200 (lit "{}") (inr (VDict []))))
    (lit "key") (lit "a@b.co") [] [] [] []
  = (inr (report BUST " **Enriched Contact Data:**"
            (lit "Contact data enriched successfully")
            (contact_cells nothing_shown (lit "N/A") (lit "N/A"))),
     [] ++ [contact_request (lit "key") (lit "a@b.co") [] [] []]).
Proof.
  destruct (missing_payload_gives_empty_report
              (answering (Response 200 (lit "{}") (inr (VDict []))))
              (lit "key") (lit "a@b.co") [] [] [] []
              (Response 200 (lit "{}") (inr (VDict []))) []
              eq_refl eq_refl) as (_ & Hcontact).
  apply Hcontact.
  - apply contact_checks_pass.
  - reflexivity.
  - reflexivity.
Defined.

Lemma contact_reads_company_name_and_first_phone_witness :
  phone_cell
    (VDict [(lit "phone_numbers",
             VList [VDict [(lit "raw_number", VStr (lit "+1 555 0100"))];
                    VDict [(lit "raw_number", VStr (lit "+1 555 0199"))]])])
  = inr (VStr (lit "+1 555 0100")).
Proof.
  destruct (contact_reads_company_name_and_first_phone
              [(lit "phone_numbers",
                VList [VDict [(lit "raw_number", VStr (lit "+1 555 0100"))];
                       VDict [(lit "raw_number", VStr (lit "+1 555 0199"))]])])
    as (_ & Hphone).
  apply (Hphone [(lit "raw_number", VStr (lit "+1 555 0100"))]
           [VDict [(lit "raw_number", VStr (lit "+1 555 0199"))]]).
  vm_compute. reflexivity.
Defined.

Lemma validate_api_key_counts_trimmed_length_witness :
  validate_api_key (lit "  " ++ lit "0123456789" ++ lit " ")
  = validate_api_key (lit "0123456789")
  /\ ~ blank (lit "0123456789").
Proof.
  destruct validate_api_key_counts_trimmed_length as (_ & Hframe & Hblank).
  split.
  - apply Hframe; repeat constructor.
  - apply Hblank. vm_compute. reflexivity.
Defined.

Lemma short_key_passes_the_key_check_witness :
  validate_api_key (lit "abc") = false
  /\ enrich_company_data offline (lit "abc") [] [] [] [] []
     = (inr DOMAIN_REQUIRED, [])
  /\ enrich_contact_data offline (lit "abc") [] [] [] [] []
     = (inr EMAIL_REQUIRED, []).
Proof.
  apply (short_key_passes_the_key_check offline (lit "abc") [] [] [] []).
  vm_compute. split; lia.
Defined.

Lemma surrounding_space_fails_validation_witness :
  enrich_company_data offline (lit "key") (lit " example.com") [] [] [] []
  = (inr DOMAIN_INVALID, [])
  /\ enrich_contact_data offline (lit "key") (lit " example.com") [] [] [] []
     = (inr EMAIL_INVALID, []).
Proof.
  apply (surrounding_space_fails_validation offline (lit "key")
           (lit " example.com") [] [] [] []).
  - apply key_not_blank.
  - unfold blank. vm_compute. discriminate.
  - vm_compute. discriminate.
  - vm_compute. discriminate.
Defined.

(** The label may end with a hyphen unless it has all 63 characters. *)
Example hyphen_at_the_end_of_a_label :
  validate_domain (replicate 61 97%N ++ lit "-.com") = true
  /\ validate_domain (replicate 62 97%N ++ lit "-.com") = false
  /\ validate_domain (replicate 63 97%N ++ lit ".com") = true
  /\ validate_domain (replicate 64 97%N ++ lit ".com") = false.
Proof. vm_compute. auto. Qed.

End MoreCases.
